(** * sPAPR capabilities (hw/ppc/spapr_caps.c)

    A shallow embedding of QEMU's pSeries logical-partition capability
    handling: the capability table, the property setters, the per-capability
    apply functions, the default policy and the post-migration check.

    C data is kept as the code has it.  A [uint8_t] or an [int] is a [Z],
    with the truncation written out where a wider value is stored into a
    narrower one.  The fixed-size arrays [caps[SPAPR_CAP_NUM]] and
    [cmd_line_caps[SPAPR_CAP_NUM]] are lists read with [!!!] and written with
    [<[i:=v]>]; a capability set is well formed ([wf_caps]) when it has
    [SPAPR_CAP_NUM] entries.  Code that touches the machine state, prints a
    report, or may stop the process runs in the monad [M]. *)

From Stdlib Require Import ZArith List String Ascii Lia Bool.
From stdpp Require Import base list strings pretty.

Local Open Scope string_scope.
Local Open Scope Z_scope.

(** ** Constants of the headers *)

Module Consts.

(** Modelled from the spec: the capability indices of hw/ppc/spapr.h, which
    is not under src/.  The spec (4.1) fixes registration order = index
    order, and [capability_table] lists its entries in this order. *)
Definition SPAPR_CAP_HTM : nat := 0.
Definition SPAPR_CAP_VSX : nat := 1.
Definition SPAPR_CAP_DFP : nat := 2.
Definition SPAPR_CAP_CFPC : nat := 3.
Definition SPAPR_CAP_SBBC : nat := 4.
Definition SPAPR_CAP_IBS : nat := 5.
Definition SPAPR_CAP_HPT_MAXPAGESIZE : nat := 6.
Definition SPAPR_CAP_NESTED_KVM_HV : nat := 7.
Definition SPAPR_CAP_NUM : nat := S SPAPR_CAP_NESTED_KVM_HV.

(** Modelled from the spec: the level constants of hw/ppc/spapr.h.  The spec
    (4.2) maps a boolean to the ordinals 1/0 and an enumerated label to its
    index in the label list (broken, workaround, fixed). *)
Definition SPAPR_CAP_OFF : Z := 0.
Definition SPAPR_CAP_ON : Z := 1.
Definition SPAPR_CAP_BROKEN : Z := 0.
Definition SPAPR_CAP_WORKAROUND : Z := 1.
Definition SPAPR_CAP_FIXED : Z := 2.

(** [EINVAL] of the host's errno.h. *)
Definition EINVAL : Z := 22.

End Consts.
Export Consts.

(** The three logical PVRs [default_caps_with_cpu] asks about.  Their numeric
    values (cpu-models.h) are only ever handed to [ppc_type_check_compat], so
    they are kept as names. *)
Inductive LogicalPVR : Type :=
  | CPU_POWERPC_LOGICAL_2_06
  | CPU_POWERPC_LOGICAL_2_06_PLUS
  | CPU_POWERPC_LOGICAL_2_07.

(** ** Machine integers and C strings *)

Definition uint8 (x : Z) : Z := x mod 256.
Definition uint64 (x : Z) : Z := x mod 2 ^ 64.

(** Modelled from the spec: [is_power_of_2] and [ctz64] of
    include/qemu/host-utils.h are not under src/.  The spec (4.2) has the
    size codec accept exactly the powers of two and store their log2; the
    definitions are the usual bit tests on a [uint64_t], and
    [is_power_of_2_spec] and [ctz64_pow2] below relate them to [2 ^ k]. *)
Definition is_power_of_2 (value : Z) : bool :=
  if value =? 0 then false else Z.land value (value - 1) =? 0.

Fixpoint ctz_from (fuel : nat) (val : Z) (i : Z) : Z :=
  match fuel with
  | O => i
  | S fuel' => if Z.testbit val i then i else ctz_from fuel' val (i + 1)
  end.

Definition ctz64 (val : Z) : Z :=
  if val =? 0 then 64 else ctz_from 64 val 0.

(** A C string is a [string]; it ends at its end or at its first NUL
    character, whichever comes first. *)
Definition uchar (c : ascii) : Z := Z.of_N (N_of_ascii c).

Definition tolower (c : Z) : Z :=
  if (65 <=? c) && (c <=? 90) then c + 32 else c.

Fixpoint strcmp (s1 s2 : string) : Z :=
  match s1, s2 with
  | EmptyString, EmptyString => 0
  | EmptyString, String c2 _ => 0 - uchar c2
  | String c1 _, EmptyString => uchar c1
  | String c1 r1, String c2 r2 =>
      if negb (uchar c1 =? 0) && (uchar c1 =? uchar c2)
      then strcmp r1 r2
      else uchar c1 - uchar c2
  end.

Fixpoint strcasecmp (s1 s2 : string) : Z :=
  match s1, s2 with
  | EmptyString, EmptyString => 0
  | EmptyString, String c2 _ => 0 - tolower (uchar c2)
  | String c1 _, EmptyString => tolower (uchar c1)
  | String c1 r1, String c2 r2 =>
      if negb (uchar c1 =? 0) && (tolower (uchar c1) =? tolower (uchar c2))
      then strcasecmp r1 r2
      else tolower (uchar c1) - tolower (uchar c2)
  end.

Definition dquote : string := String (ascii_of_nat 34) EmptyString.

(** ** The machine state *)

Definition Error : Type := string.

Record sPAPRCapabilities : Type := { caps : list Z }.

Record sPAPRMachineClass : Type := { default_caps : sPAPRCapabilities }.

Record sPAPRMachineState : Type := {
  smc : sPAPRMachineClass;       (* SPAPR_MACHINE_GET_CLASS(spapr) *)
  cpu_type : string;             (* MACHINE(spapr)->cpu_type *)
  max_compat_pvr : Z;
  cmd_line_caps : list bool;
  def : sPAPRCapabilities;
  eff : sPAPRCapabilities;
  mig : sPAPRCapabilities
}.

Definition wf_caps (c : sPAPRCapabilities) : Prop :=
  length (caps c) = SPAPR_CAP_NUM.

(** [c.caps[i] = v] on a capability set held by value. *)
Definition caps_store (c : sPAPRCapabilities) (i : nat) (v : Z)
  : sPAPRCapabilities :=
  {| caps := <[i:=v]> (caps c) |}.

Definition with_cmd_line_caps (s : sPAPRMachineState) (l : list bool)
  : sPAPRMachineState :=
  {| smc := smc s; cpu_type := cpu_type s; max_compat_pvr := max_compat_pvr s;
     cmd_line_caps := l; def := def s; eff := eff s; mig := mig s |}.

Definition with_def (s : sPAPRMachineState) (c : sPAPRCapabilities)
  : sPAPRMachineState :=
  {| smc := smc s; cpu_type := cpu_type s; max_compat_pvr := max_compat_pvr s;
     cmd_line_caps := cmd_line_caps s; def := c; eff := eff s; mig := mig s |}.

Definition with_eff (s : sPAPRMachineState) (c : sPAPRCapabilities)
  : sPAPRMachineState :=
  {| smc := smc s; cpu_type := cpu_type s; max_compat_pvr := max_compat_pvr s;
     cmd_line_caps := cmd_line_caps s; def := def s; eff := c; mig := mig s |}.

Definition with_mig (s : sPAPRMachineState) (c : sPAPRCapabilities)
  : sPAPRMachineState :=
  {| smc := smc s; cpu_type := cpu_type s; max_compat_pvr := max_compat_pvr s;
     cmd_line_caps := cmd_line_caps s; def := def s; eff := eff s; mig := c |}.

(** ** The host: accelerator, KVM queries, first CPU

    These functions live in other files of the tree (accel, target/ppc/kvm.c,
    target/ppc/compat.c, exec.c); the code here only calls them, so they are
    the fields of a record every function below takes as an argument. *)
Record Host : Type := {
  tcg_enabled : bool;
  kvm_enabled : bool;
  kvmppc_has_cap_htm : bool;
  kvmppc_get_cap_safe_cache : Z;
  kvmppc_get_cap_safe_bounds_check : Z;
  kvmppc_get_cap_safe_indirect_branch : Z;
  kvmppc_has_cap_nested_kvm_hv : bool;
  kvmppc_set_cap_nested_kvm_hv : Z -> Z;
  kvmppc_hpt_needs_host_contiguous_pages : bool;
  qemu_getrampagesize : Z;
  (* ppc_type_check_compat(cputype, compat_pvr, min_compat_pvr, max_compat_pvr) *)
  ppc_type_check_compat : string -> LogicalPVR -> Z -> Z -> bool;
  (* first_cpu: env->insns_flags & PPC_ALTIVEC, env->insns_flags2 & PPC2_VSX,
     env->insns_flags2 & PPC2_DFP, each as a truth value *)
  insns_flags_ALTIVEC : bool;
  insns_flags2_VSX : bool;
  insns_flags2_DFP : bool
}.

(** ** Effects *)

Inductive Report : Type :=
  | error_report (msg : string)
  | warn_report (msg : string).

Record World : Type := {
  spapr : sPAPRMachineState;
  console : list Report
}.

(** How a call ends: it returns, the process exits through [error_fatal], or
    it has no defined result (a failed assertion, an out-of-bounds read, a
    shift by 64 or more). *)
Inductive Outcome (A : Type) : Type :=
  | Return (a : A) (w : World)
  | Exit (status : Z) (w : World)
  | Crash.
Arguments Return {A} a w.
Arguments Exit {A} status w.
Arguments Crash {A}.

Definition M (A : Type) : Type := World -> Outcome A.

Definition ret {A} (a : A) : M A := fun w => Return a w.

Definition bind {A B} (m : M A) (k : A -> M B) : M B :=
  fun w =>
    match m w with
    | Return a w' => k a w'
    | Exit st w' => Exit st w'
    | Crash => Crash
    end.

Notation "x <- m ;; k" := (bind m (fun x => k))
  (at level 100, m at next level, right associativity,
   format "'[v' x  <-  m  ;;  '/' k ']'").
Notation "m ;;; k" := (bind m (fun _ => k))
  (at level 100, right associativity).

Definition get_spapr : M sPAPRMachineState := fun w => Return (spapr w) w.

Definition put_spapr (s : sPAPRMachineState) : M unit :=
  fun w => Return tt {| spapr := s; console := console w |}.

Definition report (r : Report) : M unit :=
  fun w => Return tt {| spapr := spapr w; console := console w ++ [r] |}.

Definition crash {A} : M A := fun _ => Crash.

Definition exit {A} (status : Z) : M A := fun w => Exit status w.

Definition g_assert (b : bool) : M unit := if b then ret tt else crash.

(** [for (i = lo; i < lo + n; i++)] over a local variable [acc]. *)
Fixpoint for_loop {S} (range : list nat) (body : nat -> S -> M S) (acc : S)
  : M S :=
  match range with
  | [] => ret acc
  | i :: range' => acc' <- body i acc ;; for_loop range' body acc'
  end.

(** ** Capability descriptors *)

Record sPAPRCapPossible : Type := {
  num : Z;              (* size of vals *)
  help : string;
  vals : list string
}.

(** A [Visitor] hands the setter the value being set, or an error when the
    input does not parse as the type asked for. *)
Record Visitor : Type := {
  visit_type_bool : Error + bool;
  visit_type_str : Error + string;
  visit_type_size : Error + Z       (* a uint64_t *)
}.

(** The setter a descriptor points to.  The setters take the descriptor
    itself as their [opaque] argument, so the pointer is kept as the name of
    its target and [property_set] below makes the call.  (The getters are not
    part of this development.) *)
Inductive ObjectPropertyAccessor : Type :=
  | set_bool
  | set_string
  | set_pagesize.

(** What [cpu_apply] does to a CPU goes through
    [ppc_hash64_filter_pagesizes] (target/ppc/mmu-hash64.c), which is handed
    in by the caller together with its CPU type; the callback it receives
    answers [None] when its assertion fails. *)
Definition PagesizeFilter (CPU : Type) : Type :=
  CPU -> (Z -> Z -> option bool) -> CPU.

Record sPAPRCapabilityInfo : Type := {
  name : string;
  description : string;
  index : nat;
  set : ObjectPropertyAccessor;
  type : string;
  possible : option sPAPRCapPossible;      (* NULL unless a string type *)
  apply : Host -> Z -> M (option Error);
  cpu_apply : option (forall CPU : Type, PagesizeFilter CPU -> CPU -> Z -> CPU)
}.

(** [possible->vals[i]]: reading past the [num] labels is undefined. *)
Definition vals_at (p : sPAPRCapPossible) (i : Z) : M string :=
  if (0 <=? i) && (i <? num p) then
    match vals p !! Z.to_nat i with
    | Some label => ret label
    | None => crash
    end
  else crash.

Definition store_cmd_line_caps (i : nat) (b : bool) : M unit :=
  s <- get_spapr ;;
  put_spapr (with_cmd_line_caps s (<[i:=b]> (cmd_line_caps s))).

Definition store_eff_caps (i : nat) (v : Z) : M unit :=
  s <- get_spapr ;;
  put_spapr (with_eff s (caps_store (eff s) i v)).

(** ** Property setters

    A setter returns what it leaves in [*errp]: [None] when it sets no
    error. *)

Definition spapr_cap_set_bool (cap : sPAPRCapabilityInfo) (v : Visitor)
  : M (option Error) :=
  match visit_type_bool v with
  | inl local_err => ret (Some local_err)
  | inr value =>
      store_cmd_line_caps (index cap) true ;;;
      store_eff_caps (index cap)
        (if value then SPAPR_CAP_ON else SPAPR_CAP_OFF) ;;;
      ret None
  end.

(** The loop of [spapr_cap_set_string] from [i] on; [true] when a label
    matched and the state was written.  The counter is a [uint8_t]: after 256
    rounds it is back where it started, so a loop that has not left by then
    never does, and running out of [fuel] stands for that. *)
Fixpoint set_string_scan (cap : sPAPRCapabilityInfo) (p : sPAPRCapPossible)
    (val : string) (i : Z) (fuel : nat) : M bool :=
  match fuel with
  | O => crash
  | S fuel' =>
      if i <? num p then
        label <- vals_at p i ;;
        if strcasecmp val label =? 0 then
          store_cmd_line_caps (index cap) true ;;;
          store_eff_caps (index cap) i ;;;
          ret true
        else set_string_scan cap p val (uint8 (i + 1)) fuel'
      else ret false
  end.

Definition spapr_cap_set_string (cap : sPAPRCapabilityInfo) (v : Visitor)
  : M (option Error) :=
  match visit_type_str v with
  | inl local_err => ret (Some local_err)
  | inr val =>
      match possible cap with
      | None => crash
      | Some p =>
          if strcmp val "?" =? 0 then ret (Some (help p))
          else
            found <- set_string_scan cap p val 0 257 ;;
            if found : bool then ret None
            else ret (Some ("Invalid capability mode " +:+ dquote +:+ val
                            +:+ dquote +:+ " for cap-" +:+ name cap))
      end
  end.

Definition spapr_cap_set_pagesize (cap : sPAPRCapabilityInfo) (v : Visitor)
  : M (option Error) :=
  match visit_type_size v with
  | inl local_err => ret (Some local_err)
  | inr pagesize =>
      if negb (is_power_of_2 pagesize) then
        ret (Some ("cap-" +:+ name cap +:+ " must be a power of 2"))
      else
        let val := uint8 (ctz64 pagesize) in
        store_cmd_line_caps (index cap) true ;;;
        store_eff_caps (index cap) val ;;;
        ret None
  end.

Definition property_set (cap : sPAPRCapabilityInfo) (v : Visitor)
  : M (option Error) :=
  match set cap with
  | set_bool => spapr_cap_set_bool cap v
  | set_string => spapr_cap_set_string cap v
  | set_pagesize => spapr_cap_set_pagesize cap v
  end.

(** ** Apply functions

    Each returns what it leaves in [*errp]. *)

Definition cap_htm_apply (h : Host) (val : Z) : M (option Error) :=
  if val =? 0 then ret None
  else if tcg_enabled h then
    ret (Some "No Transactional Memory support in TCG, try cap-htm=off")
  else if kvm_enabled h && negb (kvmppc_has_cap_htm h) then
    ret (Some "KVM implementation does not support Transactional Memory, try cap-htm=off")
  else ret None.

Definition cap_vsx_apply (h : Host) (val : Z) : M (option Error) :=
  if val =? 0 then ret None
  else
    g_assert (insns_flags_ALTIVEC h) ;;;
    if negb (insns_flags2_VSX h) then
      ret (Some "VSX support not available, try cap-vsx=off")
    else ret None.

Definition cap_dfp_apply (h : Host) (val : Z) : M (option Error) :=
  if val =? 0 then ret None
  else if negb (insns_flags2_DFP h) then
    ret (Some "DFP support not available, try cap-dfp=off")
  else ret None.

Definition cap_cfpc_possible : sPAPRCapPossible :=
  {| num := 3;
     vals := ["broken"; "workaround"; "fixed"];
     help := "broken - no protection, workaround - workaround available,"
             +:+ " fixed - fixed in hardware" |}.

Definition cap_safe_cache_apply (h : Host) (val : Z) : M (option Error) :=
  let kvm_val := uint8 (kvmppc_get_cap_safe_cache h) in
  if tcg_enabled h && negb (val =? 0) then
    ret (Some "Requested safe cache capability level not supported by tcg, try a different value for cap-cfpc")
  else if kvm_enabled h && (val >? kvm_val) then
    label <- vals_at cap_cfpc_possible kvm_val ;;
    ret (Some ("Requested safe cache capability level not supported by kvm, try cap-cfpc="
               +:+ label))
  else ret None.

Definition cap_sbbc_possible : sPAPRCapPossible :=
  {| num := 3;
     vals := ["broken"; "workaround"; "fixed"];
     help := "broken - no protection, workaround - workaround available,"
             +:+ " fixed - fixed in hardware" |}.

Definition cap_safe_bounds_check_apply (h : Host) (val : Z)
  : M (option Error) :=
  let kvm_val := uint8 (kvmppc_get_cap_safe_bounds_check h) in
  if tcg_enabled h && negb (val =? 0) then
    ret (Some "Requested safe bounds check capability level not supported by tcg, try a different value for cap-sbbc")
  else if kvm_enabled h && (val >? kvm_val) then
    label <- vals_at cap_sbbc_possible kvm_val ;;
    ret (Some ("Requested safe bounds check capability level not supported by kvm, try cap-sbbc="
               +:+ label))
  else ret None.

Definition cap_ibs_possible : sPAPRCapPossible :=
  {| num := 4;
     (* Note workaround only maintained for compatibility *)
     vals := ["broken"; "workaround"; "fixed-ibs"; "fixed-ccd"];
     help := "broken - no protection, fixed-ibs - indirect branch serialisation,"
             +:+ " fixed-ccd - cache count disabled" |}.

Definition cap_safe_indirect_branch_apply (h : Host) (val : Z)
  : M (option Error) :=
  let kvm_val := uint8 (kvmppc_get_cap_safe_indirect_branch h) in
  if val =? SPAPR_CAP_WORKAROUND then   (* Can only be Broken or Fixed *)
    label <- vals_at cap_ibs_possible kvm_val ;;
    ret (Some ("Requested safe indirect branch capability level "
               +:+ dquote +:+ "workaround" +:+ dquote
               +:+ " not valid, try cap-ibs=" +:+ label))
  else if tcg_enabled h && negb (val =? 0) then
    ret (Some "Requested safe indirect branch capability level not supported by tcg, try a different value for cap-ibs")
  else if kvm_enabled h && negb (val =? 0) && negb (val =? kvm_val) then
    label <- vals_at cap_ibs_possible kvm_val ;;
    ret (Some ("Requested safe indirect branch capability level not supported by kvm, try cap-ibs="
               +:+ label))
  else ret None.

Definition VALUE_DESC_TRISTATE : string := " (broken, workaround, fixed)".

(** [1ULL << n]: undefined from 64 on. *)
Definition shl1_64 (n : Z) : M Z :=
  if (0 <=? n) && (n <? 64) then ret (Z.shiftl 1 n) else crash.

Definition spapr_check_pagesize (h : Host) (pagesize : Z) : M (option Error) :=
  s <- get_spapr ;;
  maxpagesize <- shl1_64 (caps (eff s) !!! SPAPR_CAP_HPT_MAXPAGESIZE) ;;
  if negb (kvmppc_hpt_needs_host_contiguous_pages h) then ret None
  else if maxpagesize >? pagesize then
    ret (Some ("Can't support " +:+ pretty (Z.shiftr maxpagesize 10)
               +:+ " kiB guest pages with " +:+ pretty (Z.shiftr pagesize 10)
               +:+ " kiB host pages with this KVM implementation"))
  else ret None.

Definition cap_hpt_maxpagesize_apply (h : Host) (val : Z)
  : M (option Error) :=
  if val <? 12 then ret (Some "Require at least 4kiB hpt-max-page-size")
  else
    (if val <? 16 then
       report (warn_report
                 "Many guests require at least 64kiB hpt-max-page-size")
     else ret tt) ;;;
    spapr_check_pagesize h (uint64 (qemu_getrampagesize h)).

Definition spapr_pagesize_cb (maxshift seg_pshift pshift : Z) : option bool :=
  if negb (pshift >=? seg_pshift) then None      (* assert *)
  else if pshift >? maxshift then Some false
  else if negb (pshift =? seg_pshift) && negb (pshift =? 24) then Some false
  else Some true.

Definition cap_hpt_maxpagesize_cpu_apply (CPU : Type)
    (ppc_hash64_filter_pagesizes : PagesizeFilter CPU) (cpu : CPU) (val : Z)
  : CPU :=
  let maxshift := val in
  ppc_hash64_filter_pagesizes cpu (spapr_pagesize_cb maxshift).

Definition cap_nested_kvm_hv_apply (h : Host) (val : Z) : M (option Error) :=
  if val =? 0 then ret None
  else if tcg_enabled h then
    ret (Some "No Nested KVM-HV support in tcg, try cap-nested-hv=off")
  else if kvm_enabled h then
    if negb (kvmppc_has_cap_nested_kvm_hv h) then
      ret (Some "KVM implementation does not support Nested KVM-HV, try cap-nested-hv=off")
    else if kvmppc_set_cap_nested_kvm_hv h val <? 0 then
      ret (Some "Error enabling cap-nested-hv with KVM, try cap-nested-hv=off")
    else ret None
  else ret None.

(** ** The capability table *)

Definition capability_table : list sPAPRCapabilityInfo := [
  (* [SPAPR_CAP_HTM] *)
  {| name := "htm";
     description := "Allow Hardware Transactional Memory (HTM)";
     index := SPAPR_CAP_HTM;
     set := set_bool;
     type := "bool";
     possible := None;
     apply := cap_htm_apply;
     cpu_apply := None |};
  (* [SPAPR_CAP_VSX] *)
  {| name := "vsx";
     description := "Allow Vector Scalar Extensions (VSX)";
     index := SPAPR_CAP_VSX;
     set := set_bool;
     type := "bool";
     possible := None;
     apply := cap_vsx_apply;
     cpu_apply := None |};
  (* [SPAPR_CAP_DFP] *)
  {| name := "dfp";
     description := "Allow Decimal Floating Point (DFP)";
     index := SPAPR_CAP_DFP;
     set := set_bool;
     type := "bool";
     possible := None;
     apply := cap_dfp_apply;
     cpu_apply := None |};
  (* [SPAPR_CAP_CFPC] *)
  {| name := "cfpc";
     description := "Cache Flush on Privilege Change" +:+ VALUE_DESC_TRISTATE;
     index := SPAPR_CAP_CFPC;
     set := set_string;
     type := "string";
     possible := Some cap_cfpc_possible;
     apply := cap_safe_cache_apply;
     cpu_apply := None |};
  (* [SPAPR_CAP_SBBC] *)
  {| name := "sbbc";
     description :=
       "Speculation Barrier Bounds Checking" +:+ VALUE_DESC_TRISTATE;
     index := SPAPR_CAP_SBBC;
     set := set_string;
     type := "string";
     possible := Some cap_sbbc_possible;
     apply := cap_safe_bounds_check_apply;
     cpu_apply := None |};
  (* [SPAPR_CAP_IBS] *)
  {| name := "ibs";
     description :=
       "Indirect Branch Speculation (broken, fixed-ibs, fixed-ccd)";
     index := SPAPR_CAP_IBS;
     set := set_string;
     type := "string";
     possible := Some cap_ibs_possible;
     apply := cap_safe_indirect_branch_apply;
     cpu_apply := None |};
  (* [SPAPR_CAP_HPT_MAXPAGESIZE] *)
  {| name := "hpt-max-page-size";
     description := "Maximum page size for Hash Page Table guests";
     index := SPAPR_CAP_HPT_MAXPAGESIZE;
     set := set_pagesize;
     type := "int";
     possible := None;
     apply := cap_hpt_maxpagesize_apply;
     cpu_apply := Some cap_hpt_maxpagesize_cpu_apply |};
  (* [SPAPR_CAP_NESTED_KVM_HV] *)
  {| name := "nested-hv";
     description := "Allow Nested KVM-HV";
     index := SPAPR_CAP_NESTED_KVM_HV;
     set := set_bool;
     type := "bool";
     possible := None;
     apply := cap_nested_kvm_hv_apply;
     cpu_apply := None |}
].

(** [&capability_table[i]] *)
Definition table_at (i : nat) : M sPAPRCapabilityInfo :=
  match capability_table !! i with
  | Some info => ret info
  | None => crash
  end.

(** ** Defaults *)

Definition default_caps_with_cpu (h : Host) (cputype : string)
  : M sPAPRCapabilities :=
  spapr <- get_spapr ;;
  let smc := smc spapr in
  let c := default_caps smc in              (* caps = smc->default_caps *)
  let c :=
    if negb (ppc_type_check_compat h cputype CPU_POWERPC_LOGICAL_2_07
               0 (max_compat_pvr spapr))
    then caps_store (caps_store c SPAPR_CAP_HTM SPAPR_CAP_OFF)
           SPAPR_CAP_CFPC SPAPR_CAP_BROKEN
    else c in
  let c :=
    if negb (ppc_type_check_compat h cputype CPU_POWERPC_LOGICAL_2_06_PLUS
               0 (max_compat_pvr spapr))
    then caps_store c SPAPR_CAP_SBBC SPAPR_CAP_BROKEN
    else c in
  let c :=
    if negb (ppc_type_check_compat h cputype CPU_POWERPC_LOGICAL_2_06
               0 (max_compat_pvr spapr))
    then caps_store
           (caps_store (caps_store c SPAPR_CAP_VSX SPAPR_CAP_OFF)
              SPAPR_CAP_DFP SPAPR_CAP_OFF)
           SPAPR_CAP_IBS SPAPR_CAP_BROKEN
    else c in
  (* This is for pseries-2.12 and older *)
  let c :=
    if caps (default_caps smc) !!! SPAPR_CAP_HPT_MAXPAGESIZE =? 0
    then
      let mps :=
        if kvmppc_hpt_needs_host_contiguous_pages h
        then uint8 (ctz64 (uint64 (qemu_getrampagesize h)))
        else 34 (* allow everything up to 16GiB, i.e. everything *) in
      caps_store c SPAPR_CAP_HPT_MAXPAGESIZE mps
    else c in
  ret c.

Definition spapr_caps_init (h : Host) : M unit :=
  s <- get_spapr ;;
  default_caps <- default_caps_with_cpu h (cpu_type s) ;;
  for_loop (seq 0 SPAPR_CAP_NUM)
    (fun i _ =>
       s <- get_spapr ;;
       (* Store the defaults *)
       put_spapr (with_def s (caps_store (def s) i (caps default_caps !!! i))) ;;;
       s <- get_spapr ;;
       (* If not set on the command line then apply the default value *)
       if negb (cmd_line_caps s !!! i) then
         store_eff_caps i (caps default_caps !!! i)
       else ret tt)
    tt.

(** ** Migration *)

Definition spapr_caps_pre_load : M Z :=
  s <- get_spapr ;;
  (* Set to default so we can tell if this came in with the migration *)
  put_spapr (with_mig s (def s)) ;;;
  ret 0.

Definition spapr_caps_pre_save : M Z :=
  s <- get_spapr ;;
  put_spapr (with_mig s (eff s)) ;;;
  ret 0.

Definition higher_level_msg (nm : string) (src dst : Z) : string :=
  "cap-" +:+ nm +:+ " higher level (" +:+ pretty src
  +:+ ") in incoming stream than on destination (" +:+ pretty dst +:+ ")".

Definition lower_level_msg (nm : string) (src dst : Z) : string :=
  "cap-" +:+ nm +:+ " lower level (" +:+ pretty src
  +:+ ") in incoming stream than on destination (" +:+ pretty dst +:+ ")".

(** The first loop of [spapr_caps_post_migration]: the source's capability
    set, rebuilt from the recomputed defaults and the incoming values. *)
Definition reconstruct_srccaps (srccaps : sPAPRCapabilities)
  : M sPAPRCapabilities :=
  for_loop (seq 0 SPAPR_CAP_NUM)
    (fun i srccaps =>
       s <- get_spapr ;;
       (* If not default value then assume came in with the migration *)
       if negb (caps (mig s) !!! i =? caps (def s) !!! i) then
         ret (caps_store srccaps i (caps (mig s) !!! i))
       else ret srccaps)
    srccaps.

(** The second loop: the comparison, over the local variable [ok]. *)
Definition compare_caps (srccaps dstcaps : sPAPRCapabilities) : M bool :=
  for_loop (seq 0 SPAPR_CAP_NUM)
    (fun i ok =>
       info <- table_at i ;;
       ok <- (if caps srccaps !!! i >? caps dstcaps !!! i then
                report (error_report
                          (higher_level_msg (name info) (caps srccaps !!! i)
                             (caps dstcaps !!! i))) ;;;
                ret false
              else ret ok) ;;
       (if caps srccaps !!! i <? caps dstcaps !!! i then
          report (warn_report
                    (lower_level_msg (name info) (caps srccaps !!! i)
                       (caps dstcaps !!! i)))
        else ret tt) ;;;
       ret ok)
    true.

Definition spapr_caps_post_migration (h : Host) : M Z :=
  s <- get_spapr ;;
  let dstcaps := eff s in
  srccaps <- default_caps_with_cpu h (cpu_type s) ;;
  srccaps <- reconstruct_srccaps srccaps ;;
  ok <- compare_caps srccaps dstcaps ;;
  ret (if ok : bool then 0 else - EINVAL).

(** ** Applying the capabilities *)

(** [errp == &error_fatal]: an error set by the callee is reported and the
    process exits with status 1. *)
Definition error_fatal (m : M (option Error)) : M unit :=
  err <- m ;;
  match err with
  | None => ret tt
  | Some msg => report (error_report msg) ;;; exit 1
  end.

Definition spapr_caps_apply (h : Host) : M unit :=
  for_loop (seq 0 SPAPR_CAP_NUM)
    (fun i _ =>
       info <- table_at i ;;
       s <- get_spapr ;;
       error_fatal (apply info h (caps (eff s) !!! i)))
    tt.

Definition spapr_caps_cpu_apply (CPU : Type)
    (ppc_hash64_filter_pagesizes : PagesizeFilter CPU) (cpu : CPU) : M CPU :=
  for_loop (seq 0 SPAPR_CAP_NUM)
    (fun i cpu =>
       info <- table_at i ;;
       s <- get_spapr ;;
       match cpu_apply info with
       | Some f => ret (f CPU ppc_hash64_filter_pagesizes cpu
                          (caps (eff s) !!! i))
       | None => ret cpu
       end)
    cpu.

(** ** Property getters *)

(** Modelled from the spec: [spapr_get_cap] is an inline function of
    hw/ppc/spapr.h, which is not under src/; the spec (6) has a getter decode
    the current effective level, so it reads [eff.caps[cap]]. *)
Definition spapr_get_cap (spapr : sPAPRMachineState) (cap : nat) : Z :=
  caps (eff spapr) !!! cap.

(** What a getter hands to its output visitor. *)
Inductive Visited : Type :=
  | visited_bool (value : bool)
  | visited_str (val : string)
  | visited_size (pagesize : Z).

(** A getter returns the error it sets itself, or the value it visits (the
    visitor's own verdict on that value is the visitor's). *)
Definition spapr_cap_get_bool (cap : sPAPRCapabilityInfo)
  : M (Error + Visited) :=
  spapr <- get_spapr ;;
  let value := spapr_get_cap spapr (index cap) =? SPAPR_CAP_ON in
  ret (inr (visited_bool value)).

Definition spapr_cap_get_string (cap : sPAPRCapabilityInfo)
  : M (Error + Visited) :=
  spapr <- get_spapr ;;
  let value := spapr_get_cap spapr (index cap) in
  match possible cap with
  | None => crash
  | Some p =>
      if value >=? num p then
        ret (inl ("Invalid value (" +:+ pretty value +:+ ") for cap-"
                  +:+ name cap))
      else
        val <- vals_at p value ;;
        ret (inr (visited_str val))
  end.

Definition spapr_cap_get_pagesize (cap : sPAPRCapabilityInfo)
  : M (Error + Visited) :=
  spapr <- get_spapr ;;
  let val := spapr_get_cap spapr (index cap) in
  pagesize <- shl1_64 val ;;
  ret (inr (visited_size pagesize)).

(** The [.get] fields of [capability_table], entry by entry. *)
Definition capability_table_get
  : list (sPAPRCapabilityInfo -> M (Error + Visited)) := [
  spapr_cap_get_bool;        (* [SPAPR_CAP_HTM] *)
  spapr_cap_get_bool;        (* [SPAPR_CAP_VSX] *)
  spapr_cap_get_bool;        (* [SPAPR_CAP_DFP] *)
  spapr_cap_get_string;      (* [SPAPR_CAP_CFPC] *)
  spapr_cap_get_string;      (* [SPAPR_CAP_SBBC] *)
  spapr_cap_get_string;      (* [SPAPR_CAP_IBS] *)
  spapr_cap_get_pagesize;    (* [SPAPR_CAP_HPT_MAXPAGESIZE] *)
  spapr_cap_get_bool         (* [SPAPR_CAP_NESTED_KVM_HV] *)
].

(** ** Migration sections *)

(** [spapr_cap_<sname>_needed], the function [SPAPR_CAP_MIG_STATE(sname, cap)]
    defines: whether the section of [cap] goes into the stream. *)
Definition spapr_cap_needed (cap : nat) (spapr : sPAPRMachineState) : bool :=
  (cmd_line_caps spapr !!! cap)
  && negb (caps (eff spapr) !!! cap =? caps (def spapr) !!! cap).

Definition spapr_cap_htm_needed := spapr_cap_needed SPAPR_CAP_HTM.
Definition spapr_cap_vsx_needed := spapr_cap_needed SPAPR_CAP_VSX.
Definition spapr_cap_dfp_needed := spapr_cap_needed SPAPR_CAP_DFP.
Definition spapr_cap_cfpc_needed := spapr_cap_needed SPAPR_CAP_CFPC.
Definition spapr_cap_sbbc_needed := spapr_cap_needed SPAPR_CAP_SBBC.
Definition spapr_cap_ibs_needed := spapr_cap_needed SPAPR_CAP_IBS.
Definition spapr_cap_nested_kvm_hv_needed :=
  spapr_cap_needed SPAPR_CAP_NESTED_KVM_HV.

(** * Vocabulary of the statements *)

(** A world with more reports on its console. *)
Definition add_reports (w : World) (rs : list Report) : World :=
  {| spapr := spapr w; console := console w ++ rs |}.

(** The capability set [default_caps_with_cpu] returns, as a function of
    what it reads. *)
Definition default_caps_value (h : Host) (cputype : string)
    (base : sPAPRCapabilities) (max_pvr : Z) : sPAPRCapabilities :=
  let c := base in
  let c :=
    if ppc_type_check_compat h cputype CPU_POWERPC_LOGICAL_2_07 0 max_pvr
    then c
    else caps_store (caps_store c SPAPR_CAP_HTM 0) SPAPR_CAP_CFPC 0 in
  let c :=
    if ppc_type_check_compat h cputype CPU_POWERPC_LOGICAL_2_06_PLUS 0 max_pvr
    then c
    else caps_store c SPAPR_CAP_SBBC 0 in
  let c :=
    if ppc_type_check_compat h cputype CPU_POWERPC_LOGICAL_2_06 0 max_pvr
    then c
    else caps_store (caps_store (caps_store c SPAPR_CAP_VSX 0) SPAPR_CAP_DFP 0)
           SPAPR_CAP_IBS 0 in
  if caps base !!! SPAPR_CAP_HPT_MAXPAGESIZE =? 0 then
    caps_store c SPAPR_CAP_HPT_MAXPAGESIZE
      (if kvmppc_hpt_needs_host_contiguous_pages h
       then uint8 (ctz64 (uint64 (qemu_getrampagesize h)))
       else 34)
  else c.

(** The source's capability set as [spapr_caps_post_migration] rebuilds it:
    its first two steps. *)
Definition source_caps (h : Host) : M sPAPRCapabilities :=
  s <- get_spapr ;;
  srccaps <- default_caps_with_cpu h (cpu_type s) ;;
  reconstruct_srccaps srccaps.

Definition cap_name (i : nat) : string :=
  match capability_table !! i with
  | Some info => name info
  | None => EmptyString
  end.

(** What one round of the comparison prints. *)
Definition reports_at (srccaps dstcaps : sPAPRCapabilities) (i : nat)
  : list Report :=
  (if caps srccaps !!! i >? caps dstcaps !!! i
   then [error_report (higher_level_msg (cap_name i) (caps srccaps !!! i)
                         (caps dstcaps !!! i))]
   else [])
  ++ (if caps srccaps !!! i <? caps dstcaps !!! i
      then [warn_report (lower_level_msg (cap_name i) (caps srccaps !!! i)
                           (caps dstcaps !!! i))]
      else []).

Definition migration_reports (srccaps dstcaps : sPAPRCapabilities)
  : list Report :=
  flat_map (reports_at srccaps dstcaps) (seq 0 SPAPR_CAP_NUM).

Definition higher_somewhere (srccaps dstcaps : sPAPRCapabilities)
    (range : list nat) : bool :=
  existsb (fun i => caps srccaps !!! i >? caps dstcaps !!! i) range.

Definition reconstruct_step (s : sPAPRMachineState)
    (srccaps : sPAPRCapabilities) (i : nat) : sPAPRCapabilities :=
  if caps (mig s) !!! i =? caps (def s) !!! i then srccaps
  else caps_store srccaps i (caps (mig s) !!! i).

(** ** Sample hosts and machines *)

Module Examples.

(** A KVM host: cfpc and sbbc up to workaround, ibs fixed-ccd, 64kiB pages. *)
Definition host_kvm : Host :=
  {| tcg_enabled := false;
     kvm_enabled := true;
     kvmppc_has_cap_htm := true;
     kvmppc_get_cap_safe_cache := 1;
     kvmppc_get_cap_safe_bounds_check := 1;
     kvmppc_get_cap_safe_indirect_branch := 3;
     kvmppc_has_cap_nested_kvm_hv := false;
     kvmppc_set_cap_nested_kvm_hv := fun _ => 0;
     kvmppc_hpt_needs_host_contiguous_pages := true;
     qemu_getrampagesize := 65536;
     ppc_type_check_compat := fun _ pvr _ _ =>
       match pvr with CPU_POWERPC_LOGICAL_2_07 => false | _ => true end;
     insns_flags_ALTIVEC := true;
     insns_flags2_VSX := true;
     insns_flags2_DFP := true |}.

Definition host_tcg : Host :=
  {| tcg_enabled := true;
     kvm_enabled := false;
     kvmppc_has_cap_htm := false;
     kvmppc_get_cap_safe_cache := 0;
     kvmppc_get_cap_safe_bounds_check := 0;
     kvmppc_get_cap_safe_indirect_branch := 0;
     kvmppc_has_cap_nested_kvm_hv := false;
     kvmppc_set_cap_nested_kvm_hv := fun _ => 0;
     kvmppc_hpt_needs_host_contiguous_pages := false;
     qemu_getrampagesize := 4096;
     ppc_type_check_compat := fun _ _ _ _ => true;
     insns_flags_ALTIVEC := true;
     insns_flags2_VSX := true;
     insns_flags2_DFP := true |}.

(** htm on, vsx on, dfp on, cfpc fixed, sbbc broken, ibs broken, 64kiB
    pages, nested-hv off. *)
Definition class_caps : sPAPRCapabilities :=
  {| caps := [1; 1; 1; 2; 0; 0; 16; 0] |}.

(** The destination of a migration: cfpc was set to workaround on its
    command line, and the stream brought cfpc = fixed and ibs = broken. *)
Definition machine : sPAPRMachineState :=
  {| smc := {| default_caps := class_caps |};
     cpu_type := "power8_v2.0-powerpc64-cpu";
     max_compat_pvr := 0;
     cmd_line_caps := [false; false; false; true; false; false; false; false];
     def := {| caps := [0; 1; 1; 0; 0; 0; 16; 0] |};
     eff := {| caps := [0; 1; 1; 1; 0; 2; 16; 0] |};
     mig := {| caps := [0; 1; 1; 2; 0; 0; 16; 0] |} |}.

Definition world : World := {| spapr := machine; console := [] |}.

(** The same machine class and compatibility limit, everything else
    different. *)
Definition other_world : World :=
  {| spapr :=
       {| smc := {| default_caps := class_caps |};
          cpu_type := "power9_v2.0-powerpc64-cpu";
          max_compat_pvr := 0;
          cmd_line_caps := [true; true; true; true; true; true; true; true];
          def := {| caps := [1; 0; 0; 2; 2; 3; 24; 1] |};
          eff := {| caps := [1; 1; 0; 0; 1; 0; 12; 0] |};
          mig := {| caps := [0; 0; 0; 0; 0; 0; 0; 0] |} |};
     console := [warn_report "earlier output"] |}.

(** Visitors over a size and over a string; asking one for another type is
    an error. *)
Definition size_visitor (n : Z) : Visitor :=
  {| visit_type_bool := inl "Invalid parameter type, expected: boolean";
     visit_type_str := inl "Invalid parameter type, expected: string";
     visit_type_size := inr n |}.

Definition str_visitor (s : string) : Visitor :=
  {| visit_type_bool := inl "Invalid parameter type, expected: boolean";
     visit_type_str := inr s;
     visit_type_size := inl "Invalid parameter type, expected: integer" |}.

End Examples.

(** The state a setter leaves when it accepts level [v] for [cap]. *)
Definition set_level (w : World) (cap : sPAPRCapabilityInfo) (v : Z) : World :=
  {| spapr :=
       with_eff
         (with_cmd_line_caps (spapr w)
            (<[index cap:=true]> (cmd_line_caps (spapr w))))
         (caps_store (eff (spapr w)) (index cap) v);
     console := console w |}.

(** What [strcasecmp] compares: the characters before the first NUL, in
    lower case. *)
Fixpoint casefold (s : string) : list Z :=
  match s with
  | EmptyString => []
  | String c r => if uchar c =? 0 then [] else tolower (uchar c) :: casefold r
  end.

(** A value that is none of [p]'s labels. *)
Definition unrecognized (p : sPAPRCapPossible) (val : string) : Prop :=
  forall label, label ∈ vals p -> strcasecmp val label <> 0.

Definition invalid_mode_msg (cap : sPAPRCapabilityInfo) (val : string)
  : string :=
  "Invalid capability mode " +:+ dquote +:+ val +:+ dquote
  +:+ " for cap-" +:+ name cap.

(** A label table the loop of [spapr_cap_set_string] can walk: [num] labels,
    few enough for the [uint8_t] counter, no two alike up to case, and none
    that reads as the query. *)
Record wf_possible (p : sPAPRCapPossible) : Prop := {
  wf_num : 0 <= num p <= 255;
  wf_vals : length (vals p) = Z.to_nat (num p);
  wf_distinct : NoDup (casefold <$> vals p);
  wf_no_query : forall label, label ∈ vals p -> casefold label <> casefold "?"
}.

(** One round of the loop of [spapr_caps_init], on the machine state. *)
Definition init_step (default_caps : sPAPRCapabilities)
    (s : sPAPRMachineState) (i : nat) : sPAPRMachineState :=
  let s1 : sPAPRMachineState :=
    with_def s (caps_store (def s) i (caps default_caps !!! i)) in
  if (cmd_line_caps s1 !!! i : bool) then s1
  else with_eff s1 (caps_store (eff s1) i (caps default_caps !!! i)).

(** The default set [default_caps_with_cpu] computes for a machine. *)
Definition computed_defaults (h : Host) (s : sPAPRMachineState)
  : sPAPRCapabilities :=
  default_caps_value h (cpu_type s) (default_caps (smc s)) (max_compat_pvr s).

(** A machine as [spapr_caps_init] leaves it: its stored defaults are the
    computed ones, and a capability not set on the command line is at its
    default. *)
Record initialized (h : Host) (s : sPAPRMachineState) : Prop := {
  init_wf_def : wf_caps (def s);
  init_wf_eff : wf_caps (eff s);
  init_def : def s = computed_defaults h s;
  init_eff : forall i, (i < SPAPR_CAP_NUM)%nat ->
             cmd_line_caps s !!! i = false ->
             caps (eff s) !!! i = caps (def s) !!! i
}.

Module Samples.

(** [Examples.machine] once [spapr_caps_init] has run on the KVM host: ibs,
    which was not set on the command line, is back at its default. *)
Definition initialized_machine : sPAPRMachineState :=
  with_eff Examples.machine {| caps := [0; 1; 1; 1; 0; 0; 16; 0] |}.

Definition initialized_world : World :=
  {| spapr := initialized_machine; console := [] |}.

Definition bool_visitor (b : bool) : Visitor :=
  {| visit_type_bool := inr b;
     visit_type_str := inl "Invalid parameter type, expected: string";
     visit_type_size := inl "Invalid parameter type, expected: integer" |}.

End Samples.

(** How a setter leaves the world: with an error and nothing changed, or
    with no error and one level stored for its capability. *)
Definition setter_outcome (cap : sPAPRCapabilityInfo) (w : World)
    (e : option Error) (w' : World) : Prop :=
  (e <> None /\ w' = w)
  \/ (e = None /\ exists lvl, 0 <= lvl < 256 /\ w' = set_level w cap lvl).

(** The compatibility level [default_caps_with_cpu] asks of the cpu before
    it lets a capability keep its class default. *)
Definition threshold (i : nat) : option LogicalPVR :=
  if decide (i = SPAPR_CAP_HTM) then Some CPU_POWERPC_LOGICAL_2_07
  else if decide (i = SPAPR_CAP_CFPC) then Some CPU_POWERPC_LOGICAL_2_07
  else if decide (i = SPAPR_CAP_SBBC) then Some CPU_POWERPC_LOGICAL_2_06_PLUS
  else if decide (i = SPAPR_CAP_VSX) then Some CPU_POWERPC_LOGICAL_2_06
  else if decide (i = SPAPR_CAP_DFP) then Some CPU_POWERPC_LOGICAL_2_06
  else if decide (i = SPAPR_CAP_IBS) then Some CPU_POWERPC_LOGICAL_2_06
  else None.

Definition is_warning (r : Report) : Prop := exists msg, r = warn_report msg.

(** What a run of [spapr_caps_apply] from [w] may come to: it returns with
    the machine as it was and nothing but warnings printed, or the process
    exits with status 1 with the machine as it was and an error printed
    last, or it has no defined result. *)
Definition apply_all_outcome (w : World) (o : Outcome unit) : Prop :=
  match o with
  | Return _ w' =>
      spapr w' = spapr w
      /\ exists rs, console w' = (console w ++ rs)%list
                    /\ Forall is_warning rs
  | Exit status w' =>
      status = 1
      /\ spapr w' = spapr w
      /\ exists rs msg,
           console w' = (console w ++ rs ++ [error_report msg])%list
           /\ Forall is_warning rs
  | Crash => True
  end.

(** The apply function of capability [i] accepts, or refuses with [msg], the
    effective level of machine [s] on host [h], whatever the console holds. *)
Definition accepts (h : Host) (s : sPAPRMachineState) (i : nat) : Prop :=
  exists cap,
    capability_table !! i = Some cap
    /\ forall w, spapr w = s ->
         exists rs, apply cap h (caps (eff s) !!! i) w
                    = Return None (add_reports w rs).

Definition refuses (h : Host) (s : sPAPRMachineState) (i : nat) (msg : Error)
  : Prop :=
  exists cap,
    capability_table !! i = Some cap
    /\ forall w, spapr w = s ->
         exists rs, apply cap h (caps (eff s) !!! i) w
                    = Return (Some msg) (add_reports w rs).

(** * Properties *)

(** ** Running the monad *)

Lemma bind_Return {A B} (m : M A) (k : A -> M B) w a w' :
  m w = Return a w' -> bind m k w = k a w'.
Proof. intros Hm. unfold bind. now rewrite Hm. Qed.

Lemma Return_inj {A} (a b : A) w w' :
  Return a w = Return b w' -> a = b /\ w = w'.
Proof. intros E. now inversion E. Qed.

Lemma for_loop_cons {S} i range (body : nat -> S -> M S) acc w :
  for_loop (i :: range) body acc w
  = bind (body i acc) (fun acc' => for_loop range body acc') w.
Proof. reflexivity. Qed.

Lemma add_reports_nil w : add_reports w [] = w.
Proof. destruct w as [s c]. unfold add_reports. simpl. now rewrite app_nil_r. Qed.

Lemma add_reports_app w rs1 rs2 :
  add_reports (add_reports w rs1) rs2 = add_reports w (rs1 ++ rs2).
Proof. unfold add_reports. simpl. now rewrite app_assoc. Qed.

Lemma table_at_lt i w :
  (i < SPAPR_CAP_NUM)%nat ->
  exists info, capability_table !! i = Some info /\ table_at i w = Return info w.
Proof.
  intros Hi. unfold table_at.
  destruct (capability_table !! i) as [info|] eqn:E.
  - exists info. tauto.
  - apply lookup_ge_None_1 in E. simpl in E.
    cbv [SPAPR_CAP_NUM SPAPR_CAP_NESTED_KVM_HV] in Hi. lia.
Qed.

(** ** Defaults *)

Lemma default_caps_with_cpu_run h cputype w :
  default_caps_with_cpu h cputype w
  = Return (default_caps_value h cputype (default_caps (smc (spapr w)))
              (max_compat_pvr (spapr w))) w.
Proof.
  unfold default_caps_with_cpu, default_caps_value, bind, get_spapr, ret.
  unfold SPAPR_CAP_OFF, SPAPR_CAP_BROKEN.
  destruct (ppc_type_check_compat h cputype CPU_POWERPC_LOGICAL_2_07 _ _),
    (ppc_type_check_compat h cputype CPU_POWERPC_LOGICAL_2_06_PLUS _ _),
    (ppc_type_check_compat h cputype CPU_POWERPC_LOGICAL_2_06 _ _);
    reflexivity.
Qed.

Lemma caps_store_wf c i v : wf_caps c -> wf_caps (caps_store c i v).
Proof. unfold wf_caps, caps_store. simpl. now rewrite length_insert. Qed.

Lemma default_caps_value_wf h cputype base max_pvr :
  wf_caps base -> wf_caps (default_caps_value h cputype base max_pvr).
Proof.
  intros Hb. unfold default_caps_value.
  repeat match goal with
         | |- context [if ?b then _ else _] => destruct b
         end; repeat apply caps_store_wf; exact Hb.
Qed.

(** ** The post-migration check *)

Lemma reconstruct_loop_run range srccaps w :
  for_loop range
    (fun i srccaps =>
       s <- get_spapr ;;
       if negb (caps (mig s) !!! i =? caps (def s) !!! i) then
         ret (caps_store srccaps i (caps (mig s) !!! i))
       else ret srccaps)
    srccaps w
  = Return (fold_left (reconstruct_step (spapr w)) range srccaps) w.
Proof.
  revert srccaps. induction range as [|i range IH]; intros srccaps.
  - reflexivity.
  - rewrite for_loop_cons. unfold bind at 1. unfold bind at 1.
    unfold get_spapr at 1. simpl fold_left. unfold reconstruct_step at 2.
    destruct (caps (mig (spapr w)) !!! i =? caps (def (spapr w)) !!! i);
      simpl; apply IH.
Qed.

Lemma reconstruct_step_length s srccaps i :
  length (caps (reconstruct_step s srccaps i)) = length (caps srccaps).
Proof.
  unfold reconstruct_step.
  destruct (caps (mig s) !!! i =? caps (def s) !!! i); [reflexivity|].
  simpl. apply length_insert.
Qed.

Lemma reconstruct_fold_lookup s range srccaps i :
  (i < length (caps srccaps))%nat ->
  caps (fold_left (reconstruct_step s) range srccaps) !!! i
  = if bool_decide (i ∈ range)
       && negb (caps (mig s) !!! i =? caps (def s) !!! i)
    then caps (mig s) !!! i
    else caps srccaps !!! i.
Proof.
  revert srccaps. induction range as [|j range IH]; intros srccaps Hi.
  - reflexivity.
  - simpl fold_left. rewrite IH.
    2:{ now rewrite reconstruct_step_length. }
    destruct (decide (i = j)) as [->|Hne].
    + rewrite (bool_decide_eq_true_2 (j ∈ j :: range)) by left.
      unfold reconstruct_step.
      destruct (caps (mig s) !!! j =? caps (def s) !!! j) eqn:E; simpl.
      * now rewrite andb_false_r.
      * rewrite list_lookup_total_insert_eq by exact Hi.
        now destruct (bool_decide (j ∈ range)).
    + assert (bool_decide (i ∈ j :: range) = bool_decide (i ∈ range)) as ->.
      { apply bool_decide_ext. rewrite elem_of_cons. tauto. }
      assert (caps (reconstruct_step s srccaps j) !!! i = caps srccaps !!! i)
        as ->; [|reflexivity].
      unfold reconstruct_step.
      destruct (caps (mig s) !!! j =? caps (def s) !!! j); [reflexivity|].
      simpl. apply list_lookup_total_insert_ne. congruence.
Qed.

Lemma source_caps_run h w :
  source_caps h w
  = Return (fold_left (reconstruct_step (spapr w)) (seq 0 SPAPR_CAP_NUM)
              (default_caps_value h (cpu_type (spapr w))
                 (default_caps (smc (spapr w))) (max_compat_pvr (spapr w))))
      w.
Proof.
  unfold source_caps, bind at 1, get_spapr at 1.
  erewrite bind_Return by apply default_caps_with_cpu_run.
  apply reconstruct_loop_run.
Qed.

Lemma compare_loop_run srccaps dstcaps range ok w :
  Forall (fun i => (i < SPAPR_CAP_NUM)%nat) range ->
  for_loop range
    (fun i ok =>
       info <- table_at i ;;
       ok <- (if caps srccaps !!! i >? caps dstcaps !!! i then
                report (error_report
                          (higher_level_msg (name info) (caps srccaps !!! i)
                             (caps dstcaps !!! i))) ;;;
                ret false
              else ret ok) ;;
       (if caps srccaps !!! i <? caps dstcaps !!! i then
          report (warn_report
                    (lower_level_msg (name info) (caps srccaps !!! i)
                       (caps dstcaps !!! i)))
        else ret tt) ;;;
       ret ok)
    ok w
  = Return (ok && negb (higher_somewhere srccaps dstcaps range))
      (add_reports w (flat_map (reports_at srccaps dstcaps) range)).
Proof.
  intros Hrange. revert ok w.
  induction Hrange as [|i range Hi _ IH]; intros ok w.
  - simpl. rewrite add_reports_nil. now rewrite andb_true_r.
  - rewrite for_loop_cons.
    destruct (table_at_lt i w Hi) as (info & Hinfo & Hrun).
    assert (cap_name i = name info) as Hname
      by (unfold cap_name; now rewrite Hinfo).
    unfold bind at 1. unfold bind at 1. rewrite Hrun.
    simpl flat_map. rewrite <- add_reports_app.
    unfold reports_at at 1. rewrite Hname.
    unfold higher_somewhere. simpl existsb.
    destruct (caps srccaps !!! i >? caps dstcaps !!! i) eqn:Hgt;
      destruct (caps srccaps !!! i <? caps dstcaps !!! i) eqn:Hlt;
      try lia; unfold bind, report, ret; simpl; rewrite IH;
      unfold higher_somewhere, add_reports; simpl;
      rewrite <- ?app_assoc, ?app_nil_r, ?andb_false_r; reflexivity.
Qed.

Lemma compare_caps_run srccaps dstcaps w :
  compare_caps srccaps dstcaps w
  = Return (negb (higher_somewhere srccaps dstcaps (seq 0 SPAPR_CAP_NUM)))
      (add_reports w (migration_reports srccaps dstcaps)).
Proof.
  unfold compare_caps. rewrite compare_loop_run; [reflexivity|].
  apply Forall_forall. intros i Hi. apply elem_of_seq in Hi. lia.
Qed.

Lemma post_migration_run h w src :
  source_caps h w = Return src w ->
  spapr_caps_post_migration h w
  = Return (if higher_somewhere src (eff (spapr w)) (seq 0 SPAPR_CAP_NUM)
            then - EINVAL else 0)
      (add_reports w (migration_reports src (eff (spapr w)))).
Proof.
  intros Hsrc. rewrite source_caps_run in Hsrc.
  apply Return_inj in Hsrc as [Hsrc _].
  unfold spapr_caps_post_migration, bind at 1, get_spapr at 1.
  erewrite bind_Return by apply default_caps_with_cpu_run.
  erewrite bind_Return.
  2:{ unfold reconstruct_srccaps. apply reconstruct_loop_run. }
  rewrite Hsrc.
  erewrite bind_Return by apply compare_caps_run.
  unfold ret. now destruct (higher_somewhere _ _ _).
Qed.

Lemma higher_somewhere_iff srccaps dstcaps :
  higher_somewhere srccaps dstcaps (seq 0 SPAPR_CAP_NUM) = true
  <-> exists i, (i < SPAPR_CAP_NUM)%nat
                /\ caps srccaps !!! i > caps dstcaps !!! i.
Proof.
  unfold higher_somewhere. rewrite existsb_exists. split.
  - intros (i & Hin & Hgt). exists i. apply in_seq in Hin. split; lia.
  - intros (i & Hi & Hgt). exists i. split; [apply in_seq; lia | lia].
Qed.

Lemma reports_at_in_migration_reports srccaps dstcaps i r :
  (i < SPAPR_CAP_NUM)%nat ->
  r ∈ reports_at srccaps dstcaps i ->
  r ∈ migration_reports srccaps dstcaps.
Proof.
  intros Hi Hr. unfold migration_reports.
  apply list_elem_of_In, in_flat_map. exists i. split.
  - apply in_seq. lia.
  - now apply list_elem_of_In.
Qed.

(** C1: the check returns -EINVAL exactly when some capability's rebuilt
    source level is above the destination's effective level.  It visits all
    SPAPR_CAP_NUM table entries in order and never stops early: what it
    prints, after whatever the console held, is for each entry in turn the
    error "cap-<name> higher level (<src>) in incoming stream than on
    destination (<dst>)" when the source is higher and the warning
    "cap-<name> lower level (<src>) in incoming stream than on destination
    (<dst>)" when it is lower.  So every capability whose source level is
    higher has its error, with its name and both levels, among the new
    reports. *)
Theorem post_migration_fails_iff_higher (h : Host) (w : World) :
  exists src r w' rs,
    source_caps h w = Return src w
    /\ spapr_caps_post_migration h w = Return r w'
    /\ (r = - EINVAL
        <-> exists i, (i < SPAPR_CAP_NUM)%nat
                      /\ caps src !!! i > caps (eff (spapr w)) !!! i)
    /\ (r = 0 \/ r = - EINVAL)
    /\ console w' = (console w ++ rs)%list
    /\ rs
       = concat
           (imap
              (fun i info =>
                 (if caps src !!! i >? caps (eff (spapr w)) !!! i
                  then [error_report
                          ("cap-" +:+ name info +:+ " higher level ("
                           +:+ pretty (caps src !!! i)
                           +:+ ") in incoming stream than on destination ("
                           +:+ pretty (caps (eff (spapr w)) !!! i) +:+ ")")]
                  else [])
                 ++ (if caps src !!! i <? caps (eff (spapr w)) !!! i
                     then [warn_report
                             ("cap-" +:+ name info +:+ " lower level ("
                              +:+ pretty (caps src !!! i)
                              +:+ ") in incoming stream than on destination ("
                              +:+ pretty (caps (eff (spapr w)) !!! i)
                              +:+ ")")]
                     else []))%list
              capability_table)
    /\ (forall i, (i < SPAPR_CAP_NUM)%nat ->
          caps src !!! i > caps (eff (spapr w)) !!! i ->
          exists info,
            capability_table !! i = Some info
            /\ error_report
                 ("cap-" +:+ name info +:+ " higher level ("
                  +:+ pretty (caps src !!! i)
                  +:+ ") in incoming stream than on destination ("
                  +:+ pretty (caps (eff (spapr w)) !!! i) +:+ ")") ∈ rs).
Proof.
  pose (src := fold_left (reconstruct_step (spapr w)) (seq 0 SPAPR_CAP_NUM)
                 (default_caps_value h (cpu_type (spapr w))
                    (default_caps (smc (spapr w)))
                    (max_compat_pvr (spapr w)))).
  exists src. eexists _, _, (migration_reports src (eff (spapr w))).
  split; [apply source_caps_run|].
  split; [apply (post_migration_run h w src), source_caps_run|].
  clearbody src. set (dst := eff (spapr w)).
  split; [|split; [|split; [reflexivity|split]]].
  - rewrite <- higher_somewhere_iff.
    destruct (higher_somewhere src dst _); unfold EINVAL; split;
      intros; try reflexivity; discriminate.
  - destruct (higher_somewhere src dst _); tauto.
  - reflexivity.
  - intros i Hi Hgt.
    destruct (table_at_lt i w Hi) as (info & Hinfo & _).
    exists info. split; [exact Hinfo|].
    apply (reports_at_in_migration_reports _ _ i); [exact Hi|].
    unfold reports_at, cap_name. rewrite Hinfo.
    apply elem_of_app. left.
    destruct (caps src !!! i >? caps dst !!! i) eqn:E; [left | lia].
Qed.

(** C2: the rebuilt source set agrees with the freshly recomputed defaults
    (default_caps_with_cpu on the machine's cpu type and compatibility
    limit) wherever the incoming value equals the stored default, and with
    the incoming value wherever the two differ; the comparison of the check
    then runs on that set. *)
Theorem post_migration_source_caps (h : Host) (w : World) :
  wf_caps (default_caps (smc (spapr w))) ->
  exists dflt src,
    default_caps_with_cpu h (cpu_type (spapr w)) w = Return dflt w
    /\ source_caps h w = Return src w
    /\ spapr_caps_post_migration h w
       = bind (compare_caps src (eff (spapr w)))
           (fun ok => ret (if ok : bool then 0 else - EINVAL)) w
    /\ forall i, (i < SPAPR_CAP_NUM)%nat ->
         (caps (mig (spapr w)) !!! i = caps (def (spapr w)) !!! i ->
          caps src !!! i = caps dflt !!! i)
         /\ (caps (mig (spapr w)) !!! i <> caps (def (spapr w)) !!! i ->
             caps src !!! i = caps (mig (spapr w)) !!! i).
Proof.
  intros Hwf. eexists _, _.
  split; [apply default_caps_with_cpu_run|].
  split; [apply source_caps_run|].
  split.
  - erewrite post_migration_run by apply source_caps_run.
    erewrite bind_Return by apply compare_caps_run.
    unfold ret. now destruct (higher_somewhere _ _ _).
  - intros i Hi.
    rewrite reconstruct_fold_lookup.
    2:{ rewrite (default_caps_value_wf h _ _ _ Hwf). exact Hi. }
    rewrite bool_decide_eq_true_2 by (apply elem_of_seq; lia).
    simpl andb. split; intros Hcmp.
    + apply Z.eqb_eq in Hcmp. now rewrite Hcmp.
    + apply Z.eqb_neq in Hcmp. now rewrite Hcmp.
Qed.

(** C3: every capability whose rebuilt source level is below the
    destination's effective level gets, among the reports the check adds to
    the console, the warning "cap-<name> lower level (<src>) in incoming
    stream than on destination (<dst>)" with its name and both levels; the
    check warns about nothing else; and a warning is never fatal: when no
    capability has a source level above the destination's, the check
    returns 0 whatever it warned about. *)
Theorem post_migration_warns_lower (h : Host) (w : World) :
  exists src r w' rs,
    source_caps h w = Return src w
    /\ spapr_caps_post_migration h w = Return r w'
    /\ console w' = (console w ++ rs)%list
    /\ (forall i, (i < SPAPR_CAP_NUM)%nat ->
          caps src !!! i < caps (eff (spapr w)) !!! i ->
          exists info,
            capability_table !! i = Some info
            /\ warn_report
                 ("cap-" +:+ name info +:+ " lower level ("
                  +:+ pretty (caps src !!! i)
                  +:+ ") in incoming stream than on destination ("
                  +:+ pretty (caps (eff (spapr w)) !!! i) +:+ ")") ∈ rs)
    /\ (forall msg, warn_report msg ∈ rs ->
          exists i info,
            (i < SPAPR_CAP_NUM)%nat
            /\ capability_table !! i = Some info
            /\ caps src !!! i < caps (eff (spapr w)) !!! i
            /\ msg = "cap-" +:+ name info +:+ " lower level ("
                     +:+ pretty (caps src !!! i)
                     +:+ ") in incoming stream than on destination ("
                     +:+ pretty (caps (eff (spapr w)) !!! i) +:+ ")")
    /\ ((forall i, (i < SPAPR_CAP_NUM)%nat ->
           caps src !!! i <= caps (eff (spapr w)) !!! i) ->
        r = 0).
Proof.
  pose (src := fold_left (reconstruct_step (spapr w)) (seq 0 SPAPR_CAP_NUM)
                 (default_caps_value h (cpu_type (spapr w))
                    (default_caps (smc (spapr w)))
                    (max_compat_pvr (spapr w)))).
  exists src. eexists _, _, (migration_reports src (eff (spapr w))).
  split; [apply source_caps_run|].
  split; [apply (post_migration_run h w src), source_caps_run|].
  clearbody src. set (dst := eff (spapr w)).
  split; [reflexivity|]. split; [|split].
  - intros i Hi Hlt.
    destruct (table_at_lt i w Hi) as (info & Hinfo & _).
    exists info. split; [exact Hinfo|].
    apply (reports_at_in_migration_reports _ _ i); [exact Hi|].
    unfold reports_at, cap_name. rewrite Hinfo.
    apply elem_of_app. right.
    destruct (caps src !!! i <? caps dst !!! i) eqn:E; [left | lia].
  - intros msg Hmsg. unfold migration_reports in Hmsg.
    apply list_elem_of_In, in_flat_map in Hmsg.
    destruct Hmsg as (i & Hin & Hmsg). apply in_seq in Hin.
    assert (i < SPAPR_CAP_NUM)%nat as Hi by lia.
    destruct (table_at_lt i w Hi) as (info & Hinfo & _).
    exists i, info. split; [exact Hi|]. split; [exact Hinfo|].
    apply list_elem_of_In in Hmsg. unfold reports_at, cap_name in Hmsg.
    rewrite Hinfo in Hmsg. apply elem_of_app in Hmsg.
    destruct Hmsg as [Hmsg | Hmsg].
    + destruct (caps src !!! i >? caps dst !!! i);
        [apply list_elem_of_singleton in Hmsg; discriminate Hmsg
        | inversion Hmsg].
    + destruct (caps src !!! i <? caps dst !!! i) eqn:E;
        [|inversion Hmsg].
      apply list_elem_of_singleton in Hmsg. injection Hmsg as ->.
      split; [lia | reflexivity].
  - intros Hle.
    destruct (higher_somewhere src dst _) eqn:E; [|reflexivity].
    apply higher_somewhere_iff in E. destruct E as (i & Hi & Hgt).
    specialize (Hle i Hi). lia.
Qed.

(** C5: the check leaves the machine state as it found it, whether it
    returns 0 or -EINVAL: the default set, the effective set, the
    command-line flags and the incoming set are those it started with, and
    only the console grows. *)
Theorem post_migration_preserves_state (h : Host) (w : World) :
  exists r w',
    spapr_caps_post_migration h w = Return r w'
    /\ (r = 0 \/ r = - EINVAL)
    /\ spapr w' = spapr w
    /\ def (spapr w') = def (spapr w)
    /\ eff (spapr w') = eff (spapr w)
    /\ cmd_line_caps (spapr w') = cmd_line_caps (spapr w)
    /\ mig (spapr w') = mig (spapr w).
Proof.
  eexists _, _. split; [apply post_migration_run, source_caps_run|].
  split; [destruct (higher_somewhere _ _ _); tauto|].
  simpl. tauto.
Qed.

(** C4: default_caps_with_cpu always returns, leaves the machine state and
    the console as they were, and its result depends only on the machine
    class's default set, the cpu type, the compatibility limit and the host:
    two calls from states that agree on these return the same set, and so do
    two calls in a row. *)
Theorem default_caps_with_cpu_pure (h : Host) (cputype : string)
    (w1 w2 : World) :
  default_caps (smc (spapr w1)) = default_caps (smc (spapr w2)) ->
  max_compat_pvr (spapr w1) = max_compat_pvr (spapr w2) ->
  exists c,
    default_caps_with_cpu h cputype w1 = Return c w1
    /\ default_caps_with_cpu h cputype w2 = Return c w2
    /\ bind (default_caps_with_cpu h cputype)
         (fun c1 => bind (default_caps_with_cpu h cputype)
                      (fun c2 => ret (c1, c2))) w1
       = Return (c, c) w1.
Proof.
  intros Hclass Hpvr. eexists. split; [apply default_caps_with_cpu_run|].
  split.
  - rewrite default_caps_with_cpu_run. now rewrite Hclass, Hpvr.
  - erewrite bind_Return by apply default_caps_with_cpu_run.
    erewrite bind_Return by apply default_caps_with_cpu_run.
    reflexivity.
Qed.

Lemma default_caps_with_cpu_pure_witness :
  exists c,
    default_caps_with_cpu Examples.host_kvm "power8_v2.0-powerpc64-cpu"
      Examples.world = Return c Examples.world
    /\ default_caps_with_cpu Examples.host_kvm "power8_v2.0-powerpc64-cpu"
         Examples.other_world = Return c Examples.other_world
    /\ bind (default_caps_with_cpu Examples.host_kvm
               "power8_v2.0-powerpc64-cpu")
         (fun c1 => bind (default_caps_with_cpu Examples.host_kvm
                            "power8_v2.0-powerpc64-cpu")
                      (fun c2 => ret (c1, c2))) Examples.world
       = Return (c, c) Examples.world.
Proof.
  apply (default_caps_with_cpu_pure Examples.host_kvm
           "power8_v2.0-powerpc64-cpu" Examples.world Examples.other_world);
    reflexivity.
Defined.

Lemma post_migration_source_caps_witness :
  exists dflt src,
    default_caps_with_cpu Examples.host_kvm
      (cpu_type (spapr Examples.world)) Examples.world
    = Return dflt Examples.world
    /\ source_caps Examples.host_kvm Examples.world
       = Return src Examples.world
    /\ spapr_caps_post_migration Examples.host_kvm Examples.world
       = bind (compare_caps src (eff (spapr Examples.world)))
           (fun ok => ret (if ok : bool then 0 else - EINVAL)) Examples.world
    /\ forall i, (i < SPAPR_CAP_NUM)%nat ->
         (caps (mig (spapr Examples.world)) !!! i
          = caps (def (spapr Examples.world)) !!! i ->
          caps src !!! i = caps dflt !!! i)
         /\ (caps (mig (spapr Examples.world)) !!! i
             <> caps (def (spapr Examples.world)) !!! i ->
             caps src !!! i = caps (mig (spapr Examples.world)) !!! i).
Proof.
  apply (post_migration_source_caps Examples.host_kvm Examples.world).
  reflexivity.
Defined.

Example post_migration_example :
  spapr_caps_post_migration Examples.host_kvm Examples.world
  = Return (- EINVAL)
      {| spapr := Examples.machine;
         console :=
           [error_report
              "cap-cfpc higher level (2) in incoming stream than on destination (1)";
            warn_report
              "cap-ibs lower level (0) in incoming stream than on destination (2)"]
      |}.
Proof. vm_compute. reflexivity. Qed.

(** ** The host's level under KVM *)

Lemma uint8_range x : 0 <= uint8 x < 256.
Proof. unfold uint8. apply Z.mod_pos_bound. lia. Qed.

Lemma vals_at_run p i label w :
  0 <= i < num p -> vals p !! Z.to_nat i = Some label ->
  vals_at p i w = Return label w.
Proof.
  intros Hi Hl. unfold vals_at. rewrite Hl.
  destruct (0 <=? i) eqn:E1; [|lia]. destruct (i <? num p) eqn:E2; [|lia].
  reflexivity.
Qed.

(** The labels of a three-level and of a four-level capability, by level. *)
Lemma tristate_label (k : Z) (l0 l1 l2 : string) :
  0 <= k < 3 -> exists label, [l0; l1; l2] !! Z.to_nat k = Some label.
Proof.
  intros Hk.
  assert (k = 0 \/ k = 1 \/ k = 2) as [-> | [-> | ->]] by lia;
    simpl; eauto.
Qed.

Lemma ibs_label (k : Z) :
  0 <= k < 4 ->
  exists label, vals cap_ibs_possible !! Z.to_nat k = Some label.
Proof.
  intros Hk.
  assert (k = 0 \/ k = 1 \/ k = 2 \/ k = 3) as [-> | [-> | [-> | ->]]] by lia;
    simpl; eauto.
Qed.

(** C6, as the code has it: under KVM, applying cfpc or sbbc at a level
    above the host's fails with a message that ends in the label of the
    host's level, and a level at or below the host's passes.  Applying ibs at
    a level above the host's fails likewise; at or below the host's level it
    passes only when the level is broken (0), or is the host's own level and
    not workaround: the check there is for an exact match. *)
Theorem kvm_level_check (h : Host) (val : Z) (w : World) :
  kvm_enabled h = true ->
  tcg_enabled h = false ->
  (let kvm_val := uint8 (kvmppc_get_cap_safe_cache h) in
   (0 <= val < num cap_cfpc_possible -> val > kvm_val ->
    exists label,
      vals cap_cfpc_possible !! Z.to_nat kvm_val = Some label
      /\ cap_safe_cache_apply h val w
         = Return (Some ("Requested safe cache capability level not supported by kvm, try cap-cfpc="
                         +:+ label)) w)
   /\ (val <= kvm_val -> cap_safe_cache_apply h val w = Return None w))
  /\ (let kvm_val := uint8 (kvmppc_get_cap_safe_bounds_check h) in
      (0 <= val < num cap_sbbc_possible -> val > kvm_val ->
       exists label,
         vals cap_sbbc_possible !! Z.to_nat kvm_val = Some label
         /\ cap_safe_bounds_check_apply h val w
            = Return (Some ("Requested safe bounds check capability level not supported by kvm, try cap-sbbc="
                            +:+ label)) w)
      /\ (val <= kvm_val ->
          cap_safe_bounds_check_apply h val w = Return None w))
  /\ (let kvm_val := uint8 (kvmppc_get_cap_safe_indirect_branch h) in
      (0 <= val < num cap_ibs_possible -> val > kvm_val ->
       exists label,
         vals cap_ibs_possible !! Z.to_nat kvm_val = Some label
         /\ cap_safe_indirect_branch_apply h val w
            = Return
                (Some
                   (if val =? SPAPR_CAP_WORKAROUND
                    then "Requested safe indirect branch capability level "
                         +:+ dquote +:+ "workaround" +:+ dquote
                         +:+ " not valid, try cap-ibs=" +:+ label
                    else "Requested safe indirect branch capability level not supported by kvm, try cap-ibs="
                         +:+ label)) w)
      /\ (val <= kvm_val ->
          (cap_safe_indirect_branch_apply h val w = Return None w
           <-> val = 0 \/ (val = kvm_val /\ val <> SPAPR_CAP_WORKAROUND)))).
Proof.
  intros Hkvm Htcg. repeat split.
  - intros Hval Hgt.
    pose proof (uint8_range (kvmppc_get_cap_safe_cache h)) as Hr.
    simpl in Hval.
    destruct (tristate_label (uint8 (kvmppc_get_cap_safe_cache h))
                "broken" "workaround" "fixed") as [label Hl]; [lia|].
    exists label. split; [exact Hl|].
    unfold cap_safe_cache_apply. rewrite Hkvm, Htcg. cbn [andb negb].
    destruct (val >? _) eqn:E; [|lia].
    erewrite bind_Return; [reflexivity|].
    apply vals_at_run; [simpl; lia | exact Hl].
  - intros Hle. unfold cap_safe_cache_apply. rewrite Hkvm, Htcg. cbn [andb negb].
    destruct (val >? _) eqn:E; [lia | reflexivity].
  - intros Hval Hgt.
    pose proof (uint8_range (kvmppc_get_cap_safe_bounds_check h)) as Hr.
    simpl in Hval.
    destruct (tristate_label (uint8 (kvmppc_get_cap_safe_bounds_check h))
                "broken" "workaround" "fixed") as [label Hl]; [lia|].
    exists label. split; [exact Hl|].
    unfold cap_safe_bounds_check_apply. rewrite Hkvm, Htcg. cbn [andb negb].
    destruct (val >? _) eqn:E; [|lia].
    erewrite bind_Return; [reflexivity|].
    apply vals_at_run; [simpl; lia | exact Hl].
  - intros Hle. unfold cap_safe_bounds_check_apply. rewrite Hkvm, Htcg.
    cbn [andb negb]. destruct (val >? _) eqn:E; [lia | reflexivity].
  - intros Hval Hgt.
    pose proof (uint8_range (kvmppc_get_cap_safe_indirect_branch h)) as Hr.
    simpl in Hval.
    destruct (ibs_label (uint8 (kvmppc_get_cap_safe_indirect_branch h)))
      as [label Hl]; [lia|].
    exists label. split; [exact Hl|].
    unfold cap_safe_indirect_branch_apply. rewrite Hkvm, Htcg. cbn [andb negb].
    destruct (val =? SPAPR_CAP_WORKAROUND) eqn:Ew.
    + erewrite bind_Return; [reflexivity|].
      apply vals_at_run; [simpl; lia | exact Hl].
    + destruct (val =? 0) eqn:E0; [lia|].
      destruct (val =? uint8 _) eqn:Ek; [lia|]. simpl.
      erewrite bind_Return; [reflexivity|].
      apply vals_at_run; [simpl; lia | exact Hl].
  - intros Hrun. unfold cap_safe_indirect_branch_apply in Hrun.
    rewrite Hkvm, Htcg in Hrun. cbn [andb negb] in Hrun.
    destruct (val =? SPAPR_CAP_WORKAROUND) eqn:Ew.
    + unfold bind, vals_at in Hrun.
      destruct (_ && _) in Hrun; [|discriminate].
      destruct (vals cap_ibs_possible !! _) in Hrun; discriminate.
    + destruct (val =? 0) eqn:E0; [left; lia|].
      destruct (val =? uint8 _) eqn:Ek.
      * right. split; lia.
      * simpl in Hrun. unfold bind, vals_at in Hrun.
        destruct (_ && _) in Hrun; [|discriminate].
        destruct (vals cap_ibs_possible !! _) in Hrun; discriminate.
  - intros Hok. unfold cap_safe_indirect_branch_apply.
    rewrite Hkvm, Htcg. cbn [andb negb].
    destruct Hok as [-> | [Hk Hw]].
    + reflexivity.
    + destruct (val =? SPAPR_CAP_WORKAROUND) eqn:Ew; [lia|].
      rewrite <- Hk. rewrite Z.eqb_refl.
      now destruct (val =? 0).
Qed.

Lemma kvm_level_check_witness :
  cap_safe_cache_apply Examples.host_kvm 2 Examples.world
  = Return (Some "Requested safe cache capability level not supported by kvm, try cap-cfpc=workaround")
      Examples.world
  /\ cap_safe_bounds_check_apply Examples.host_kvm 1 Examples.world
     = Return None Examples.world
  /\ cap_safe_indirect_branch_apply Examples.host_kvm 3 Examples.world
     = Return None Examples.world.
Proof.
  split; [|split].
  - destruct (kvm_level_check Examples.host_kvm 2 Examples.world
                eq_refl eq_refl) as [[Habove _] _].
    destruct Habove as (label & Hl & Hrun); [simpl; lia | reflexivity |].
    vm_compute in Hl. injection Hl as <-. exact Hrun.
  - destruct (kvm_level_check Examples.host_kvm 1 Examples.world
                eq_refl eq_refl) as (_ & [_ Hbelow] & _).
    apply Hbelow. vm_compute. discriminate.
  - destruct (kvm_level_check Examples.host_kvm 3 Examples.world
                eq_refl eq_refl) as (_ & _ & [_ Hbelow]).
    apply Hbelow.
    + vm_compute. discriminate.
    + right. split; [reflexivity | discriminate].
Defined.

(** C6 fails for ibs: on a KVM host whose level is fixed-ccd (3), applying
    fixed-ibs (2), which is below it, is refused by the KVM check. *)
Lemma ibs_below_host_level_refused :
  kvm_enabled Examples.host_kvm = true
  /\ tcg_enabled Examples.host_kvm = false
  /\ 2 <= uint8 (kvmppc_get_cap_safe_indirect_branch Examples.host_kvm)
  /\ cap_safe_indirect_branch_apply Examples.host_kvm 2 Examples.world
     = Return (Some "Requested safe indirect branch capability level not supported by kvm, try cap-ibs=fixed-ccd")
         Examples.world.
Proof.
  repeat split. vm_compute. discriminate.
Qed.

(** ** Page sizes *)

Lemma is_power_of_2_pow2 k : 0 <= k -> is_power_of_2 (2 ^ k) = true.
Proof.
  intros Hk. unfold is_power_of_2.
  assert (0 < 2 ^ k) as Hpos by (apply Z.pow_pos_nonneg; lia).
  destruct (2 ^ k =? 0) eqn:E; [lia|].
  apply Z.eqb_eq.
  replace (2 ^ k - 1) with (Z.ones k) by (rewrite Z.ones_equiv; lia).
  rewrite Z.land_ones by exact Hk. apply Z.mod_same. lia.
Qed.

Lemma is_power_of_2_inv value :
  is_power_of_2 value = true -> 0 <= value ->
  value = 2 ^ Z.log2 value /\ 0 <= Z.log2 value.
Proof.
  unfold is_power_of_2. intros Hp Hnonneg.
  destruct (value =? 0) eqn:E0; [discriminate|].
  apply Z.eqb_eq in Hp.
  assert (0 < value) as Hpos by lia.
  pose proof (Z.log2_nonneg value) as Hl.
  split; [|exact Hl].
  destruct (Z.log2_spec value Hpos) as [Hlo Hhi].
  destruct (Z.eq_dec value (2 ^ Z.log2 value)) as [|Hne]; [assumption|].
  exfalso.
  assert (Z.log2 (value - 1) = Z.log2 value) as Hlog.
  { apply Z.log2_unique; [exact Hl | lia]. }
  assert (Z.testbit (Z.land value (value - 1)) (Z.log2 value) = true) as Hbit.
  { rewrite Z.land_spec, Z.bit_log2 by exact Hpos.
    rewrite <- Hlog. rewrite Z.bit_log2 by lia. reflexivity. }
  rewrite Hp, Z.bits_0 in Hbit. discriminate.
Qed.

Lemma is_power_of_2_spec value :
  0 <= value < 2 ^ 64 ->
  is_power_of_2 value = true <-> exists k, 0 <= k < 64 /\ value = 2 ^ k.
Proof.
  intros Hrange. split.
  - intros Hp. destruct (is_power_of_2_inv value Hp) as [Hv Hk]; [lia|].
    exists (Z.log2 value). split; [|exact Hv]. split; [exact Hk|].
    destruct (Z_lt_le_dec (Z.log2 value) 64) as [|Hge]; [assumption|].
    assert (2 ^ 64 <= 2 ^ Z.log2 value) by (apply Z.pow_le_mono_r; lia).
    lia.
  - intros (k & Hk & ->). apply is_power_of_2_pow2. lia.
Qed.

Lemma ctz_from_pow2 k fuel i :
  0 <= i <= k -> (Z.to_nat (k - i) < fuel)%nat ->
  ctz_from fuel (2 ^ k) i = k.
Proof.
  revert i. induction fuel as [|fuel IH]; intros i Hi Hfuel; [lia|].
  simpl. rewrite Z.pow2_bits_eqb by lia.
  destruct (k =? i) eqn:E; [lia|].
  apply IH; lia.
Qed.

Lemma ctz64_pow2 k : 0 <= k < 64 -> ctz64 (2 ^ k) = k.
Proof.
  intros Hk. unfold ctz64.
  assert (0 < 2 ^ k) as Hpos by (apply Z.pow_pos_nonneg; lia).
  destruct (2 ^ k =? 0) eqn:E; [lia|].
  apply ctz_from_pow2; lia.
Qed.

Lemma store_level_run cap v w :
  bind (store_cmd_line_caps (index cap) true)
    (fun _ => bind (store_eff_caps (index cap) v) (fun _ => ret None)) w
  = Return (@None Error) (set_level w cap v).
Proof. reflexivity. Qed.

(** C7, as the code has it: setting a page-size capability to a value that
    is not a power of two fails with an error and changes neither the
    effective level nor the command-line flag.  A power of two is accepted
    whatever its exponent: the flag is set and the exponent stored, also
    below 12; an exponent below 12 is refused later, when the capability is
    applied. *)
Theorem set_pagesize_checks (cap : sPAPRCapabilityInfo) (v : Visitor)
    (pagesize : Z) (h : Host) (w : World) :
  visit_type_size v = inr pagesize ->
  0 <= pagesize < 2 ^ 64 ->
  ((~ exists k, 0 <= k /\ pagesize = 2 ^ k) ->
   spapr_cap_set_pagesize cap v w
   = Return (Some ("cap-" +:+ name cap +:+ " must be a power of 2")) w)
  /\ (forall k, 0 <= k < 64 -> pagesize = 2 ^ k ->
        spapr_cap_set_pagesize cap v w = Return None (set_level w cap k)
        /\ (k < 12 ->
            forall w', cap_hpt_maxpagesize_apply h k w'
                       = Return (Some "Require at least 4kiB hpt-max-page-size")
                           w')).
Proof.
  intros Hv Hrange. unfold spapr_cap_set_pagesize. rewrite Hv. split.
  - intros Hnot. destruct (is_power_of_2 pagesize) eqn:Hp; [|reflexivity].
    exfalso. apply Hnot. apply is_power_of_2_spec in Hp; [|exact Hrange].
    destruct Hp as (k & Hk & ->). exists k. split; [lia | reflexivity].
  - intros k Hk ->. split.
    + rewrite is_power_of_2_pow2 by lia. cbn [negb].
      rewrite ctz64_pow2 by exact Hk.
      replace (uint8 k) with k by (unfold uint8; rewrite Z.mod_small; lia).
      apply store_level_run.
    + intros Hlow w'. unfold cap_hpt_maxpagesize_apply.
      destruct (k <? 12) eqn:E; [reflexivity | lia].
Qed.

Lemma set_pagesize_checks_witness :
  exists cap,
    capability_table !! SPAPR_CAP_HPT_MAXPAGESIZE = Some cap
    /\ property_set cap (Examples.size_visitor 3000) Examples.world
       = Return (Some "cap-hpt-max-page-size must be a power of 2")
           Examples.world
    /\ property_set cap (Examples.size_visitor 65536) Examples.world
       = Return None (set_level Examples.world cap 16).
Proof.
  eexists. split; [reflexivity|]. split.
  - refine (proj1 (set_pagesize_checks _ (Examples.size_visitor 3000) 3000
                     Examples.host_kvm Examples.world eq_refl _) _).
    + lia.
    + intros (k & Hk & Hpow).
      assert (k < 12).
      { destruct (Z_lt_le_dec k 12) as [|Hge]; [assumption|].
        assert (2 ^ 12 <= 2 ^ k) by (apply Z.pow_le_mono_r; lia). lia. }
      assert (k = 0 \/ k = 1 \/ k = 2 \/ k = 3 \/ k = 4 \/ k = 5 \/ k = 6
              \/ k = 7 \/ k = 8 \/ k = 9 \/ k = 10 \/ k = 11) as Hcases by lia.
      repeat (destruct Hcases as [-> | Hcases]; [discriminate Hpow|]).
      subst k. discriminate Hpow.
  - refine (proj1 (proj2 (set_pagesize_checks _ (Examples.size_visitor 65536)
                            65536 Examples.host_kvm Examples.world eq_refl _)
                     16 _ _)).
    + lia.
    + lia.
    + reflexivity.
Defined.

(** C7 fails for a power of two below the minimum: setting
    hpt-max-page-size to 1024 (exponent 10, below 12) returns no error, sets
    the command-line flag and stores 10 as the effective level. *)
Lemma set_pagesize_below_minimum_accepted :
  exists cap w',
    capability_table !! SPAPR_CAP_HPT_MAXPAGESIZE = Some cap
    /\ 1024 = 2 ^ 10
    /\ property_set cap (Examples.size_visitor 1024) Examples.world
       = Return None w'
    /\ caps (eff (spapr Examples.world)) !!! SPAPR_CAP_HPT_MAXPAGESIZE = 16
    /\ caps (eff (spapr w')) !!! SPAPR_CAP_HPT_MAXPAGESIZE = 10
    /\ cmd_line_caps (spapr Examples.world) !!! SPAPR_CAP_HPT_MAXPAGESIZE
       = false
    /\ cmd_line_caps (spapr w') !!! SPAPR_CAP_HPT_MAXPAGESIZE = true.
Proof.
  eexists _, _. split; [reflexivity|]. split; [reflexivity|].
  split; [vm_compute; reflexivity|]. repeat split.
Qed.

(** ** Labels *)

Lemma uchar_nonneg c : 0 <= uchar c.
Proof. unfold uchar. lia. Qed.

Lemma tolower_eq_0 c : 0 <= c -> tolower c = 0 <-> c = 0.
Proof.
  intros Hc. unfold tolower.
  destruct ((65 <=? c) && (c <=? 90)) eqn:E; [|tauto].
  apply andb_true_iff in E. lia.
Qed.

Lemma strcasecmp_0_iff s1 s2 :
  strcasecmp s1 s2 = 0 <-> casefold s1 = casefold s2.
Proof.
  revert s2. induction s1 as [|c1 r1 IH]; intros [|c2 r2]; simpl.
  - tauto.
  - pose proof (tolower_eq_0 (uchar c2) (uchar_nonneg c2)) as Hl.
    destruct (uchar c2 =? 0) eqn:E2; split; intros H;
      try reflexivity; try discriminate; lia.
  - pose proof (tolower_eq_0 (uchar c1) (uchar_nonneg c1)) as Hl.
    destruct (uchar c1 =? 0) eqn:E1; split; intros H;
      try reflexivity; try discriminate; lia.
  - pose proof (tolower_eq_0 (uchar c1) (uchar_nonneg c1)) as Hl1.
    pose proof (tolower_eq_0 (uchar c2) (uchar_nonneg c2)) as Hl2.
    destruct (uchar c1 =? 0) eqn:E1; simpl.
    + destruct (uchar c2 =? 0) eqn:E2; split; intros H;
        try reflexivity; try discriminate; lia.
    + destruct (tolower (uchar c1) =? tolower (uchar c2)) eqn:Et.
      * apply Z.eqb_eq in Et.
        destruct (uchar c2 =? 0) eqn:E2; [lia|].
        rewrite IH, Et. split; [now intros -> | now intros [= ->]].
      * split; [lia|].
        destruct (uchar c2 =? 0); [discriminate|]. intros [= Ht _]. lia.
Qed.

Lemma strcmp_0_strcasecmp_0 s1 s2 : strcmp s1 s2 = 0 -> strcasecmp s1 s2 = 0.
Proof.
  revert s2. induction s1 as [|c1 r1 IH]; intros [|c2 r2]; simpl.
  - tauto.
  - pose proof (uchar_nonneg c2). intros H0.
    replace (uchar c2) with 0 by lia. reflexivity.
  - intros ->. reflexivity.
  - destruct (uchar c1 =? 0) eqn:E1; simpl.
    + intros H0. replace (uchar c2) with (uchar c1) by lia. lia.
    + destruct (uchar c1 =? uchar c2) eqn:E; [|lia].
      apply Z.eqb_eq in E. rewrite E, Z.eqb_refl. apply IH.
Qed.

Lemma vals_at_lookup p (k : nat) label w :
  wf_possible p -> vals p !! k = Some label ->
  vals_at p (Z.of_nat k) w = Return label w.
Proof.
  intros Hwf Hl. apply vals_at_run; [|now rewrite Nat2Z.id].
  apply lookup_lt_Some in Hl. rewrite (wf_vals p Hwf) in Hl.
  pose proof (wf_num p Hwf). lia.
Qed.

Lemma set_string_scan_found cap p val w (j : nat) label :
  wf_possible p ->
  vals p !! j = Some label ->
  strcasecmp val label = 0 ->
  forall fuel (i : nat),
    (i <= j)%nat -> (j - i < fuel)%nat ->
    (forall k l, (i <= k < j)%nat -> vals p !! k = Some l ->
                 strcasecmp val l <> 0) ->
    set_string_scan cap p val (Z.of_nat i) fuel w
    = Return true (set_level w cap (Z.of_nat j)).
Proof.
  intros Hwf Hl Hmatch.
  assert (Z.of_nat j < num p) as Hj.
  { apply lookup_lt_Some in Hl. rewrite (wf_vals p Hwf) in Hl.
    pose proof (wf_num p Hwf). lia. }
  pose proof (wf_num p Hwf) as Hnum.
  induction fuel as [|fuel IH]; intros i Hij Hfuel Hbefore; [lia|].
  simpl. destruct (Z.of_nat i <? num p) eqn:Ei; [|lia].
  destruct (decide (i = j)) as [->|Hne].
  - erewrite bind_Return by (eapply vals_at_lookup; eassumption).
    rewrite Hmatch. reflexivity.
  - destruct (lookup_lt_is_Some_2 (vals p) i) as [l Hli].
    { rewrite (wf_vals p Hwf). lia. }
    erewrite bind_Return by (eapply vals_at_lookup; eassumption).
    destruct (strcasecmp val l =? 0) eqn:El.
    + apply Z.eqb_eq in El. exfalso. apply (Hbefore i l); [lia|assumption|assumption].
    + replace (uint8 (Z.of_nat i + 1)) with (Z.of_nat (S i))
        by (unfold uint8; rewrite Z.mod_small; lia).
      apply IH; [lia | lia |].
      intros k l' Hk. apply Hbefore. lia.
Qed.

Lemma set_string_scan_not_found cap p val w :
  wf_possible p ->
  unrecognized p val ->
  forall fuel (i : nat),
    (Z.to_nat (num p) - i < fuel)%nat ->
    set_string_scan cap p val (Z.of_nat i) fuel w = Return false w.
Proof.
  intros Hwf Hnone. pose proof (wf_num p Hwf) as Hnum.
  induction fuel as [|fuel IH]; intros i Hfuel; [lia|].
  simpl. destruct (Z.of_nat i <? num p) eqn:Ei; [|reflexivity].
  destruct (lookup_lt_is_Some_2 (vals p) i) as [l Hli].
  { rewrite (wf_vals p Hwf). lia. }
  erewrite bind_Return by (eapply vals_at_lookup; eassumption).
  destruct (strcasecmp val l =? 0) eqn:El.
  - apply Z.eqb_eq in El. exfalso. apply (Hnone l); [|exact El].
    apply list_elem_of_lookup. eauto.
  - replace (uint8 (Z.of_nat i + 1)) with (Z.of_nat (S i))
      by (unfold uint8; rewrite Z.mod_small; lia).
    apply IH. lia.
Qed.

Lemma registered_possible_wf cap p :
  cap ∈ capability_table -> possible cap = Some p -> wf_possible p.
Proof.
  intros Hin Hp.
  assert (p = cap_cfpc_possible \/ p = cap_sbbc_possible
          \/ p = cap_ibs_possible) as Hcases.
  { apply list_elem_of_In in Hin. simpl in Hin.
    repeat (destruct Hin as [<- | Hin];
            [simpl in Hp; first [discriminate Hp | injection Hp as <-; tauto]|]).
    destruct Hin. }
  destruct Hcases as [-> | [-> | ->]]; split.
  all: try (simpl; lia).
  all: try reflexivity.
  all: try (apply (bool_decide_unpack _); vm_compute; exact I).
  all: intros label Hl; apply list_elem_of_In in Hl; simpl in Hl;
    repeat (destruct Hl as [<- | Hl]; [discriminate|]); destruct Hl.
Qed.

(** C8: for a registered capability with a label table, setting the query
    value fails with exactly the table's help text and changes nothing;
    setting a value that is no label fails with an error and changes
    nothing; setting a label, in any case, returns no error, sets the
    command-line flag and stores the label's index as the effective level. *)
Theorem set_string_checks (cap : sPAPRCapabilityInfo) (p : sPAPRCapPossible)
    (v : Visitor) (val : string) (w : World) :
  cap ∈ capability_table ->
  possible cap = Some p ->
  visit_type_str v = inr val ->
  property_set cap v = spapr_cap_set_string cap v
  /\ (val = "?" -> spapr_cap_set_string cap v w = Return (Some (help p)) w)
  /\ (strcmp val "?" <> 0 -> unrecognized p val ->
      spapr_cap_set_string cap v w
      = Return (Some (invalid_mode_msg cap val)) w)
  /\ (forall (i : nat) label,
        vals p !! i = Some label -> strcasecmp val label = 0 ->
        spapr_cap_set_string cap v w
        = Return None (set_level w cap (Z.of_nat i))
        /\ cmd_line_caps (spapr (set_level w cap (Z.of_nat i)))
           = <[index cap:=true]> (cmd_line_caps (spapr w))
        /\ caps (eff (spapr (set_level w cap (Z.of_nat i))))
           = <[index cap:=Z.of_nat i]> (caps (eff (spapr w)))).
Proof.
  intros Hin Hp Hv. pose proof (registered_possible_wf cap p Hin Hp) as Hwf.
  split.
  { apply list_elem_of_In in Hin. simpl in Hin.
    repeat (destruct Hin as [<- | Hin];
            [first [discriminate Hp | reflexivity]|]).
    destruct Hin. }
  unfold spapr_cap_set_string. rewrite Hv, Hp. split; [|split].
  - intros ->. reflexivity.
  - intros Hq Hnone. destruct (strcmp val "?" =? 0) eqn:E; [lia|].
    erewrite bind_Return
      by (apply (set_string_scan_not_found cap p val w Hwf Hnone 257 0);
          pose proof (wf_num p Hwf); lia).
    reflexivity.
  - intros i label Hl Hmatch. split; [|split; reflexivity].
    destruct (strcmp val "?" =? 0) eqn:E.
    + exfalso. apply Z.eqb_eq, strcmp_0_strcasecmp_0, strcasecmp_0_iff in E.
      apply strcasecmp_0_iff in Hmatch. rewrite Hmatch in E.
      apply (wf_no_query p Hwf label); [|exact E].
      apply list_elem_of_lookup. eauto.
    + rewrite (bind_Return _ _ w true (set_level w cap (Z.of_nat i)));
        [reflexivity|].
      apply (set_string_scan_found cap p val w i label Hwf Hl Hmatch 257 0).
      * lia.
      * apply lookup_lt_Some in Hl. rewrite (wf_vals p Hwf) in Hl.
        pose proof (wf_num p Hwf). lia.
      * intros k l Hk Hlk Hkmatch.
        apply strcasecmp_0_iff in Hmatch, Hkmatch.
        assert (k = i); [|lia].
        apply (NoDup_lookup _ k i (casefold val) (wf_distinct p Hwf)).
        -- rewrite list_lookup_fmap, Hlk. simpl. now rewrite Hkmatch.
        -- rewrite list_lookup_fmap, Hl. simpl. now rewrite Hmatch.
Qed.

Lemma set_string_checks_witness :
  exists cap,
    capability_table !! SPAPR_CAP_CFPC = Some cap
    /\ spapr_cap_set_string cap (Examples.str_visitor "?") Examples.world
       = Return (Some (help cap_cfpc_possible)) Examples.world
    /\ spapr_cap_set_string cap (Examples.str_visitor "off") Examples.world
       = Return (Some (invalid_mode_msg cap "off")) Examples.world
    /\ spapr_cap_set_string cap (Examples.str_visitor "FiXeD") Examples.world
       = Return None (set_level Examples.world cap 2).
Proof.
  eexists. split; [reflexivity|].
  match goal with
  | |- context [spapr_cap_set_string ?c] =>
      assert (c ∈ capability_table) as Hin
        by (apply (list_elem_of_lookup_2 _ SPAPR_CAP_CFPC); reflexivity)
  end.
  split; [|split].
  - apply (proj2 (set_string_checks _ cap_cfpc_possible
                    (Examples.str_visitor "?") "?" Examples.world Hin
                    eq_refl eq_refl)).
    reflexivity.
  - apply (proj2 (set_string_checks _ cap_cfpc_possible
                    (Examples.str_visitor "off") "off" Examples.world Hin
                    eq_refl eq_refl)).
    + discriminate.
    + intros label Hl. apply list_elem_of_In in Hl. simpl in Hl.
      repeat (destruct Hl as [<- | Hl]; [discriminate|]). destruct Hl.
  - apply (proj2 (proj2 (proj2 (set_string_checks _ cap_cfpc_possible
                                  (Examples.str_visitor "FiXeD") "FiXeD"
                                  Examples.world Hin eq_refl eq_refl)))
             2%nat "fixed"); reflexivity.
Defined.

(** ** Applying the weakest level *)

(** C9, as the code has it: applying level 0 returns no error for every
    registered capability but hpt-max-page-size, whatever the host; for
    hpt-max-page-size level 0, like every level below 12, is refused. *)
Theorem apply_weakest_level (h : Host) (w : World) (i : nat)
    (cap : sPAPRCapabilityInfo) :
  capability_table !! i = Some cap ->
  (i <> SPAPR_CAP_HPT_MAXPAGESIZE -> apply cap h 0 w = Return None w)
  /\ (i = SPAPR_CAP_HPT_MAXPAGESIZE ->
      forall val, val < 12 ->
        apply cap h val w
        = Return (Some "Require at least 4kiB hpt-max-page-size") w).
Proof.
  intros Hcap.
  pose proof (uint8_range (kvmppc_get_cap_safe_cache h)) as Hc.
  pose proof (uint8_range (kvmppc_get_cap_safe_bounds_check h)) as Hs.
  destruct i as [|[|[|[|[|[|[|[|i]]]]]]]]; [..|discriminate Hcap].
  all: injection Hcap as <-.
  all: split; [intros Hne; try (exfalso; apply Hne; reflexivity)
              | intros Heq; try discriminate Heq].
  - reflexivity.
  - reflexivity.
  - reflexivity.
  - simpl. unfold cap_safe_cache_apply. simpl.
    rewrite andb_false_r.
    destruct (0 >? uint8 (kvmppc_get_cap_safe_cache h)) eqn:E; [lia|].
    now rewrite andb_false_r.
  - simpl. unfold cap_safe_bounds_check_apply. simpl.
    rewrite andb_false_r.
    destruct (0 >? uint8 (kvmppc_get_cap_safe_bounds_check h)) eqn:E; [lia|].
    now rewrite andb_false_r.
  - simpl. unfold cap_safe_indirect_branch_apply. simpl.
    now rewrite andb_false_r, andb_false_r.
  - intros val Hval. simpl. unfold cap_hpt_maxpagesize_apply.
    destruct (val <? 12) eqn:E; [reflexivity | lia].
  - reflexivity.
Qed.

Lemma apply_weakest_level_witness :
  exists cap,
    capability_table !! SPAPR_CAP_IBS = Some cap
    /\ apply cap Examples.host_kvm 0 Examples.world
       = Return None Examples.world.
Proof.
  eexists. split; [reflexivity|].
  apply (apply_weakest_level Examples.host_kvm Examples.world SPAPR_CAP_IBS).
  - reflexivity.
  - discriminate.
Defined.

(** C9 fails for hpt-max-page-size: its apply function refuses level 0,
    under TCG and under KVM alike. *)
Lemma hpt_maxpagesize_weakest_level_refused :
  exists cap,
    capability_table !! SPAPR_CAP_HPT_MAXPAGESIZE = Some cap
    /\ apply cap Examples.host_tcg 0 Examples.world
       = Return (Some "Require at least 4kiB hpt-max-page-size")
           Examples.world
    /\ apply cap Examples.host_kvm 0 Examples.world
       = Return (Some "Require at least 4kiB hpt-max-page-size")
           Examples.world.
Proof. eexists. repeat split. Qed.

(** ** The page-size filter *)

(** C10: given a candidate exponent no smaller than the segment's, the
    callback returns, and it allows the page size exactly when the candidate
    is at most the ceiling and is the segment's own exponent or 24; so it
    denies every candidate above the ceiling and every candidate that is
    neither the segment's exponent nor 24.  The ceiling is the effective
    hpt-max-page-size level: spapr_caps_cpu_apply hands the filter of a CPU
    this callback with that level as maxshift. *)
Theorem pagesize_cb_allows (maxshift seg_pshift pshift : Z) :
  seg_pshift <= pshift ->
  exists allow,
    spapr_pagesize_cb maxshift seg_pshift pshift = Some allow
    /\ (allow = true
        <-> pshift <= maxshift /\ (pshift = seg_pshift \/ pshift = 24))
    /\ (pshift > maxshift -> allow = false)
    /\ (pshift <> seg_pshift -> pshift <> 24 -> allow = false)
    /\ (forall (CPU : Type) (filter : PagesizeFilter CPU) (cpu : CPU) w,
          caps (eff (spapr w)) !!! SPAPR_CAP_HPT_MAXPAGESIZE = maxshift ->
          spapr_caps_cpu_apply CPU filter cpu w
          = Return (filter cpu (spapr_pagesize_cb maxshift)) w).
Proof.
  intros Hpre.
  assert (forall (CPU : Type) (filter : PagesizeFilter CPU) (cpu : CPU) w,
            caps (eff (spapr w)) !!! SPAPR_CAP_HPT_MAXPAGESIZE = maxshift ->
            spapr_caps_cpu_apply CPU filter cpu w
            = Return (filter cpu (spapr_pagesize_cb maxshift)) w) as Hcpu.
  { intros CPU filter cpu w <-. reflexivity. }
  unfold spapr_pagesize_cb.
  destruct (pshift >=? seg_pshift) eqn:Ea; [|lia]. cbn [negb].
  destruct (pshift >? maxshift) eqn:Eb.
  - exists false. repeat split; try reflexivity; try exact Hcpu; intros; try lia;
      discriminate.
  - destruct (pshift =? seg_pshift) eqn:Ec; cbn [negb andb].
    + exists true. repeat split; try reflexivity; try exact Hcpu; intros; lia.
    + destruct (pshift =? 24) eqn:Ed; cbn [negb].
      * exists true. repeat split; try reflexivity; try exact Hcpu; intros; lia.
      * exists false. repeat split; try reflexivity; try exact Hcpu; intros; try lia;
          discriminate.
Qed.

Lemma pagesize_cb_allows_witness :
  exists allow,
    spapr_pagesize_cb 24 16 24 = Some allow
    /\ (allow = true <-> 24 <= 24 /\ (24 = 16 \/ 24 = 24))
    /\ (24 > 24 -> allow = false)
    /\ (24 <> 16 -> 24 <> 24 -> allow = false)
    /\ (forall (CPU : Type) (filter : PagesizeFilter CPU) (cpu : CPU) w,
          caps (eff (spapr w)) !!! SPAPR_CAP_HPT_MAXPAGESIZE = 24 ->
          spapr_caps_cpu_apply CPU filter cpu w
          = Return (filter cpu (spapr_pagesize_cb 24)) w).
Proof. apply (pagesize_cb_allows 24 16 24). lia. Defined.

Example pagesize_cb_samples :
  spapr_pagesize_cb 16 12 16 = Some false
  /\ spapr_pagesize_cb 16 16 16 = Some true
  /\ spapr_pagesize_cb 16 12 24 = Some false
  /\ spapr_pagesize_cb 34 12 24 = Some true
  /\ spapr_pagesize_cb 34 24 16 = None.
Proof. repeat split. Qed.


(** ** The model at work *)

Example caps_init_example :
  spapr_caps_init Examples.host_kvm Examples.world
  = Return tt
      {| spapr :=
           with_eff (with_def Examples.machine
                       {| caps := [0; 1; 1; 0; 0; 0; 16; 0] |})
             {| caps := [0; 1; 1; 1; 0; 0; 16; 0] |};
         console := [] |}.
Proof. vm_compute. reflexivity. Qed.

Example caps_apply_example :
  spapr_caps_apply Examples.host_kvm Examples.world
  = Exit 1
      {| spapr := Examples.machine;
         console :=
           [error_report
              "Requested safe indirect branch capability level not supported by kvm, try cap-ibs=fixed-ccd"]
      |}.
Proof. vm_compute. reflexivity. Qed.

Example caps_apply_all_weakest :
  spapr_caps_apply Examples.host_tcg
    {| spapr := with_eff Examples.machine
                  {| caps := [0; 0; 0; 0; 0; 0; 0; 0] |};
       console := [] |}
  = Exit 1
      {| spapr := with_eff Examples.machine
                    {| caps := [0; 0; 0; 0; 0; 0; 0; 0] |};
         console :=
           [error_report "Require at least 4kiB hpt-max-page-size"] |}.
Proof. vm_compute. reflexivity. Qed.

Example pre_load_then_check :
  bind spapr_caps_pre_load
    (fun _ => spapr_caps_post_migration Examples.host_kvm) Examples.world
  = Return 0
      {| spapr := with_mig Examples.machine (def Examples.machine);
         console :=
           [warn_report
              "cap-cfpc lower level (0) in incoming stream than on destination (1)";
            warn_report
              "cap-ibs lower level (0) in incoming stream than on destination (2)"]
      |}.
Proof. vm_compute. reflexivity. Qed.

(** Two capabilities above the destination: both are reported. *)
Example post_migration_two_higher :
  spapr_caps_post_migration Examples.host_tcg
    {| spapr := with_mig Examples.machine
                  {| caps := [1; 1; 1; 2; 0; 0; 16; 0] |};
       console := [] |}
  = Return (- EINVAL)
      {| spapr := with_mig Examples.machine
                    {| caps := [1; 1; 1; 2; 0; 0; 16; 0] |};
         console :=
           [error_report
              "cap-htm higher level (1) in incoming stream than on destination (0)";
            error_report
              "cap-cfpc higher level (2) in incoming stream than on destination (1)";
            warn_report
              "cap-ibs lower level (0) in incoming stream than on destination (2)"]
      |}.
Proof. vm_compute. reflexivity. Qed.

Example set_bool_example :
  exists cap,
    capability_table !! SPAPR_CAP_HTM = Some cap
    /\ property_set cap
         {| visit_type_bool := inr true;
            visit_type_str := inl "Invalid parameter type, expected: string";
            visit_type_size := inl "Invalid parameter type, expected: integer" |}
         Examples.world
       = Return None (set_level Examples.world cap SPAPR_CAP_ON).
Proof. eexists. split; reflexivity. Qed.

(** * Further properties *)

(** ** Machine initialisation *)

Lemma caps_ext c1 c2 :
  wf_caps c1 -> wf_caps c2 ->
  (forall i, (i < SPAPR_CAP_NUM)%nat -> caps c1 !!! i = caps c2 !!! i) ->
  c1 = c2.
Proof.
  destruct c1 as [l1], c2 as [l2]. unfold wf_caps. simpl.
  intros H1 H2 Hext. f_equal.
  apply (list_eq_same_length l1 l2 SPAPR_CAP_NUM); [assumption..|].
  intros i x y Hi Hx Hy. specialize (Hext i Hi).
  rewrite (list_lookup_total_correct _ _ _ Hx) in Hext.
  rewrite (list_lookup_total_correct _ _ _ Hy) in Hext. exact Hext.
Qed.

Lemma init_loop_run default_caps range w :
  for_loop range
    (fun i _ =>
       s <- get_spapr ;;
       put_spapr (with_def s (caps_store (def s) i (caps default_caps !!! i))) ;;;
       s <- get_spapr ;;
       if negb (cmd_line_caps s !!! i) then
         store_eff_caps i (caps default_caps !!! i)
       else ret tt)
    tt w
  = Return tt {| spapr := fold_left (init_step default_caps) range (spapr w);
                 console := console w |}.
Proof.
  revert w. induction range as [|i range IH]; intros w.
  - destruct w. reflexivity.
  - rewrite for_loop_cons. simpl fold_left.
    rewrite (bind_Return _ _ w tt
               {| spapr := init_step default_caps (spapr w) i;
                  console := console w |}).
    + rewrite IH. reflexivity.
    + unfold init_step, bind, get_spapr, put_spapr, store_eff_caps. simpl.
      destruct (cmd_line_caps (spapr w) !!! i); reflexivity.
Qed.

Lemma init_step_frame dflt s i :
  smc (init_step dflt s i) = smc s
  /\ cpu_type (init_step dflt s i) = cpu_type s
  /\ max_compat_pvr (init_step dflt s i) = max_compat_pvr s
  /\ cmd_line_caps (init_step dflt s i) = cmd_line_caps s
  /\ mig (init_step dflt s i) = mig s
  /\ length (caps (def (init_step dflt s i))) = length (caps (def s))
  /\ length (caps (eff (init_step dflt s i))) = length (caps (eff s)).
Proof.
  unfold init_step. simpl.
  destruct (cmd_line_caps s !!! i); simpl; rewrite ?length_insert; tauto.
Qed.

Lemma init_fold_frame dflt range s :
  smc (fold_left (init_step dflt) range s) = smc s
  /\ cpu_type (fold_left (init_step dflt) range s) = cpu_type s
  /\ max_compat_pvr (fold_left (init_step dflt) range s) = max_compat_pvr s
  /\ cmd_line_caps (fold_left (init_step dflt) range s) = cmd_line_caps s
  /\ mig (fold_left (init_step dflt) range s) = mig s
  /\ length (caps (def (fold_left (init_step dflt) range s)))
     = length (caps (def s))
  /\ length (caps (eff (fold_left (init_step dflt) range s)))
     = length (caps (eff s)).
Proof.
  revert s. induction range as [|i range IH]; intros s; simpl.
  - tauto.
  - destruct (IH (init_step dflt s i)) as (-> & -> & -> & -> & -> & -> & ->).
    apply init_step_frame.
Qed.

Lemma init_fold_def dflt range s i :
  (i < length (caps (def s)))%nat ->
  caps (def (fold_left (init_step dflt) range s)) !!! i
  = if bool_decide (i ∈ range) then caps dflt !!! i
    else caps (def s) !!! i.
Proof.
  revert s. induction range as [|j range IH]; intros s Hi.
  - reflexivity.
  - simpl fold_left. rewrite IH.
    2:{ now rewrite (proj1 (proj2 (proj2 (proj2 (proj2 (proj2
              (init_step_frame dflt s j))))))). }
    destruct (decide (i = j)) as [->|Hne].
    + rewrite (bool_decide_eq_true_2 (j ∈ j :: range)) by left.
      destruct (bool_decide (j ∈ range)); [reflexivity|].
      unfold init_step. simpl.
      destruct (cmd_line_caps s !!! j); simpl;
        now rewrite list_lookup_total_insert_eq.
    + assert (bool_decide (i ∈ j :: range) = bool_decide (i ∈ range)) as ->.
      { apply bool_decide_ext. rewrite elem_of_cons. tauto. }
      destruct (bool_decide (i ∈ range)); [reflexivity|].
      unfold init_step. simpl.
      destruct (cmd_line_caps s !!! j); simpl;
        apply list_lookup_total_insert_ne; congruence.
Qed.

Lemma init_fold_eff dflt range s i :
  (i < length (caps (eff s)))%nat ->
  caps (eff (fold_left (init_step dflt) range s)) !!! i
  = if bool_decide (i ∈ range) && negb (cmd_line_caps s !!! i)
    then caps dflt !!! i
    else caps (eff s) !!! i.
Proof.
  revert s. induction range as [|j range IH]; intros s Hi.
  - reflexivity.
  - simpl fold_left. rewrite IH.
    2:{ now rewrite (proj2 (proj2 (proj2 (proj2 (proj2 (proj2
              (init_step_frame dflt s j))))))). }
    rewrite (proj1 (proj2 (proj2 (proj2 (init_step_frame dflt s j))))).
    destruct (decide (i = j)) as [->|Hne].
    + rewrite (bool_decide_eq_true_2 (j ∈ j :: range)) by left.
      unfold init_step. simpl.
      destruct (cmd_line_caps s !!! j) eqn:Ef; simpl.
      * now rewrite andb_false_r.
      * rewrite list_lookup_total_insert_eq by exact Hi.
        now destruct (bool_decide (j ∈ range)).
    + assert (bool_decide (i ∈ j :: range) = bool_decide (i ∈ range)) as ->.
      { apply bool_decide_ext. rewrite elem_of_cons. tauto. }
      assert (caps (eff (init_step dflt s j)) !!! i = caps (eff s) !!! i)
        as ->; [|reflexivity].
      unfold init_step. simpl.
      destruct (cmd_line_caps s !!! j); simpl; [reflexivity|].
      apply list_lookup_total_insert_ne. congruence.
Qed.

Lemma caps_init_run h w :
  spapr_caps_init h w
  = Return tt
      {| spapr := fold_left (init_step (computed_defaults h (spapr w)))
                    (seq 0 SPAPR_CAP_NUM) (spapr w);
         console := console w |}.
Proof.
  unfold spapr_caps_init, bind at 1, get_spapr at 1.
  erewrite bind_Return by apply default_caps_with_cpu_run.
  apply init_loop_run.
Qed.

Lemma computed_defaults_frame h s s' :
  smc s' = smc s -> cpu_type s' = cpu_type s ->
  max_compat_pvr s' = max_compat_pvr s ->
  computed_defaults h s' = computed_defaults h s.
Proof. unfold computed_defaults. now intros -> -> ->. Qed.

Lemma in_range_seq i : (i < SPAPR_CAP_NUM)%nat -> i ∈ seq 0 SPAPR_CAP_NUM.
Proof. intros Hi. apply elem_of_seq. lia. Qed.

Lemma caps_init_post h w :
  wf_caps (default_caps (smc (spapr w))) ->
  wf_caps (def (spapr w)) ->
  wf_caps (eff (spapr w)) ->
  let s' := fold_left (init_step (computed_defaults h (spapr w)))
              (seq 0 SPAPR_CAP_NUM) (spapr w) in
  initialized h s'
  /\ (forall i, (i < SPAPR_CAP_NUM)%nat ->
        caps (eff s') !!! i
        = if (cmd_line_caps (spapr w) !!! i : bool)
          then caps (eff (spapr w)) !!! i
          else caps (computed_defaults h (spapr w)) !!! i).
Proof.
  intros Hsmc Hdef Heff s'. subst s'.
  set (dflt := computed_defaults h (spapr w)).
  destruct (init_fold_frame dflt (seq 0 SPAPR_CAP_NUM) (spapr w))
    as (Esmc & Ecpu & Epvr & Eflags & Emig & Eldef & Eleff).
  assert (wf_caps dflt) as Hdflt by (apply default_caps_value_wf; exact Hsmc).
  assert (forall i, (i < SPAPR_CAP_NUM)%nat ->
            caps (def (fold_left (init_step dflt) (seq 0 SPAPR_CAP_NUM)
                         (spapr w))) !!! i = caps dflt !!! i) as Hd.
  { intros i Hi. rewrite init_fold_def by (rewrite Hdef; exact Hi).
    now rewrite bool_decide_eq_true_2 by (apply in_range_seq; exact Hi). }
  assert (forall i, (i < SPAPR_CAP_NUM)%nat ->
            caps (eff (fold_left (init_step dflt) (seq 0 SPAPR_CAP_NUM)
                         (spapr w))) !!! i
            = if (cmd_line_caps (spapr w) !!! i : bool)
              then caps (eff (spapr w)) !!! i else caps dflt !!! i) as He.
  { intros i Hi. rewrite init_fold_eff by (rewrite Heff; exact Hi).
    rewrite bool_decide_eq_true_2 by (apply in_range_seq; exact Hi).
    now destruct (cmd_line_caps (spapr w) !!! i). }
  split; [|exact He].
  split.
  - unfold wf_caps. now rewrite Eldef.
  - unfold wf_caps. now rewrite Eleff.
  - rewrite (computed_defaults_frame h (spapr w)) by assumption.
    apply caps_ext; [unfold wf_caps; now rewrite Eldef | exact Hdflt |].
    exact Hd.
  - intros i Hi Hflag. rewrite Eflags in Hflag.
    rewrite He, Hd by exact Hi. now rewrite Hflag.
Qed.

(** X1: on a machine whose capability arrays have SPAPR_CAP_NUM entries,
    spapr_caps_init returns and leaves the stored defaults equal to the set
    default_caps_with_cpu computes, every capability not set on the command
    line at its default and every capability set there at the level it had;
    the command-line flags, the incoming set and the console are untouched. *)
Theorem caps_init_establishes (h : Host) (w : World) :
  wf_caps (default_caps (smc (spapr w))) ->
  wf_caps (def (spapr w)) ->
  wf_caps (eff (spapr w)) ->
  exists w',
    spapr_caps_init h w = Return tt w'
    /\ initialized h (spapr w')
    /\ (forall i, (i < SPAPR_CAP_NUM)%nat ->
          cmd_line_caps (spapr w) !!! i = true ->
          caps (eff (spapr w')) !!! i = caps (eff (spapr w)) !!! i)
    /\ cmd_line_caps (spapr w') = cmd_line_caps (spapr w)
    /\ mig (spapr w') = mig (spapr w)
    /\ console w' = console w.
Proof.
  intros Hsmc Hdef Heff. eexists. split; [apply caps_init_run|].
  destruct (caps_init_post h w Hsmc Hdef Heff) as [Hinit He].
  destruct (init_fold_frame (computed_defaults h (spapr w))
              (seq 0 SPAPR_CAP_NUM) (spapr w))
    as (_ & _ & _ & Eflags & Emig & _).
  cbn [spapr console].
  split; [exact Hinit|]. split; [|tauto].
  intros i Hi Hflag. rewrite He by exact Hi. now rewrite Hflag.
Qed.

Lemma caps_init_establishes_witness :
  exists w',
    spapr_caps_init Examples.host_kvm Examples.world = Return tt w'
    /\ initialized Examples.host_kvm (spapr w')
    /\ (forall i, (i < SPAPR_CAP_NUM)%nat ->
          cmd_line_caps (spapr Examples.world) !!! i = true ->
          caps (eff (spapr w')) !!! i
          = caps (eff (spapr Examples.world)) !!! i)
    /\ cmd_line_caps (spapr w') = cmd_line_caps (spapr Examples.world)
    /\ mig (spapr w') = mig (spapr Examples.world)
    /\ console w' = console Examples.world.
Proof.
  apply (caps_init_establishes Examples.host_kvm Examples.world);
    reflexivity.
Defined.

Lemma machine_ext (s1 s2 : sPAPRMachineState) :
  smc s1 = smc s2 -> cpu_type s1 = cpu_type s2 ->
  max_compat_pvr s1 = max_compat_pvr s2 ->
  cmd_line_caps s1 = cmd_line_caps s2 ->
  def s1 = def s2 -> eff s1 = eff s2 -> mig s1 = mig s2 -> s1 = s2.
Proof. destruct s1, s2. simpl. congruence. Qed.

Lemma caps_init_noop h w :
  initialized h (spapr w) -> spapr_caps_init h w = Return tt w.
Proof.
  intros [Hdef Heff Hd He]. rewrite caps_init_run.
  set (dflt := computed_defaults h (spapr w)) in *.
  destruct (init_fold_frame dflt (seq 0 SPAPR_CAP_NUM) (spapr w))
    as (Esmc & Ecpu & Epvr & Eflags & Emig & Eldef & Eleff).
  destruct w as [s c]. cbn [spapr console] in *. do 2 f_equal.
  apply machine_ext; try assumption.
  - apply caps_ext; [unfold wf_caps; now rewrite Eldef | exact Hdef |].
    intros i Hi. rewrite init_fold_def by (rewrite Hdef; exact Hi).
    rewrite bool_decide_eq_true_2 by (apply in_range_seq; exact Hi).
    now rewrite Hd.
  - apply caps_ext; [unfold wf_caps; now rewrite Eleff | exact Heff |].
    intros i Hi. rewrite init_fold_eff by (rewrite Heff; exact Hi).
    rewrite bool_decide_eq_true_2 by (apply in_range_seq; exact Hi).
    destruct (cmd_line_caps s !!! i) eqn:Ef; [reflexivity|].
    simpl. rewrite (He i Hi Ef). now rewrite Hd.
Qed.

(** X2: spapr_caps_init is idempotent: running it a second time changes
    nothing. *)
Theorem caps_init_idempotent (h : Host) (w : World) :
  wf_caps (default_caps (smc (spapr w))) ->
  wf_caps (def (spapr w)) ->
  wf_caps (eff (spapr w)) ->
  bind (spapr_caps_init h) (fun _ => spapr_caps_init h) w
  = spapr_caps_init h w.
Proof.
  intros Hsmc Hdef Heff.
  destruct (caps_init_post h w Hsmc Hdef Heff) as [Hinit _].
  rewrite (bind_Return _ _ w tt _ (caps_init_run h w)).
  rewrite (caps_init_run h w). now apply caps_init_noop.
Qed.

Lemma caps_init_idempotent_witness :
  bind (spapr_caps_init Examples.host_kvm)
    (fun _ => spapr_caps_init Examples.host_kvm) Examples.world
  = spapr_caps_init Examples.host_kvm Examples.world.
Proof.
  apply (caps_init_idempotent Examples.host_kvm Examples.world);
    reflexivity.
Defined.

(** ** Migration on an initialised machine *)

Lemma reconstruct_fold_id s range srccaps :
  mig s = def s -> fold_left (reconstruct_step s) range srccaps = srccaps.
Proof.
  intros Hmig. revert srccaps.
  induction range as [|i range IH]; intros srccaps; [reflexivity|].
  simpl. unfold reconstruct_step at 2. rewrite Hmig, Z.eqb_refl. apply IH.
Qed.

Lemma equal_caps_no_reports srccaps dstcaps :
  (forall i, (i < SPAPR_CAP_NUM)%nat ->
     caps srccaps !!! i = caps dstcaps !!! i) ->
  migration_reports srccaps dstcaps = []
  /\ higher_somewhere srccaps dstcaps (seq 0 SPAPR_CAP_NUM) = false.
Proof.
  intros Heq. unfold migration_reports, higher_somewhere.
  assert (Forall (fun i => (i < SPAPR_CAP_NUM)%nat) (seq 0 SPAPR_CAP_NUM))
    as Hrange.
  { apply Forall_forall. intros i Hi. apply elem_of_seq in Hi. lia. }
  induction Hrange as [|i range Hi _ [IH1 IH2]]; [split; reflexivity|].
  simpl. rewrite IH1, IH2. unfold reports_at. rewrite (Heq i Hi).
  rewrite Z.ltb_irrefl.
  destruct (caps dstcaps !!! i >? caps dstcaps !!! i) eqn:E; [lia|].
  split; reflexivity.
Qed.

(** X3: on an initialised machine, a stream that carries no capability
    section (the incoming set stays as spapr_caps_pre_load left it) makes the
    check compare the machine's own defaults with its effective set: it
    returns -EINVAL exactly when some default is above the effective level,
    and it returns 0 without a report when nothing was set on the command
    line. *)
Theorem no_sections_check (h : Host) (w : World) :
  initialized h (spapr w) ->
  exists r w',
    bind spapr_caps_pre_load (fun _ => spapr_caps_post_migration h) w
    = Return r w'
    /\ spapr w' = with_mig (spapr w) (def (spapr w))
    /\ console w'
       = (console w
          ++ migration_reports (def (spapr w)) (eff (spapr w)))%list
    /\ (r = - EINVAL
        <-> exists i, (i < SPAPR_CAP_NUM)%nat
                      /\ caps (def (spapr w)) !!! i
                         > caps (eff (spapr w)) !!! i)
    /\ ((forall i, (i < SPAPR_CAP_NUM)%nat ->
           cmd_line_caps (spapr w) !!! i = false) ->
        r = 0 /\ console w' = console w).
Proof.
  intros [Hwd Hwe Hd He].
  set (w1 := {| spapr := with_mig (spapr w) (def (spapr w));
                console := console w |}).
  assert (source_caps h w1 = Return (def (spapr w)) w1) as Hsrc.
  { rewrite source_caps_run. f_equal.
    rewrite reconstruct_fold_id by reflexivity.
    symmetry. exact Hd. }
  eexists _, _. split.
  { rewrite (bind_Return _ _ w 0 w1) by reflexivity.
    apply (post_migration_run h w1 _ Hsrc). }
  cbn [spapr console w1 add_reports eff with_mig].
  split; [reflexivity|]. split; [reflexivity|]. split.
  - rewrite <- higher_somewhere_iff.
    destruct (higher_somewhere _ _ _); unfold EINVAL; split; intros;
      try reflexivity; discriminate.
  - intros Hflags.
    destruct (equal_caps_no_reports (def (spapr w)) (eff (spapr w)))
      as [Hnone Hlow].
    { intros i Hi. symmetry. apply He; [exact Hi | apply Hflags; exact Hi]. }
    rewrite Hnone, Hlow, app_nil_r. split; reflexivity.
Qed.

Lemma initialized_sample :
  initialized Examples.host_kvm Samples.initialized_machine.
Proof.
  split; try reflexivity.
  intros i Hi.
  destruct i as [|[|[|[|[|[|[|[|i]]]]]]]];
    try reflexivity; discriminate.
Defined.

Lemma no_sections_check_witness :
  exists r w',
    bind spapr_caps_pre_load
      (fun _ => spapr_caps_post_migration Examples.host_kvm)
      Samples.initialized_world
    = Return r w'
    /\ spapr w'
       = with_mig Samples.initialized_machine
           (def Samples.initialized_machine)
    /\ console w'
       = (console Samples.initialized_world
          ++ migration_reports (def Samples.initialized_machine)
               (eff Samples.initialized_machine))%list
    /\ (r = - EINVAL
        <-> exists i, (i < SPAPR_CAP_NUM)%nat
                      /\ caps (def Samples.initialized_machine) !!! i
                         > caps (eff Samples.initialized_machine) !!! i)
    /\ ((forall i, (i < SPAPR_CAP_NUM)%nat ->
           cmd_line_caps Samples.initialized_machine !!! i = false) ->
        r = 0 /\ console w' = console Samples.initialized_world).
Proof.
  apply (no_sections_check Examples.host_kvm Samples.initialized_world).
  exact initialized_sample.
Defined.

(** X4: on an initialised machine, checking the set spapr_caps_pre_save
    prepares for the stream against the machine itself returns 0 and
    reports nothing: a machine is compatible with its own effective set. *)
Theorem loopback_check (h : Host) (w : World) :
  initialized h (spapr w) ->
  bind spapr_caps_pre_save (fun _ => spapr_caps_post_migration h) w
  = Return 0 {| spapr := with_mig (spapr w) (eff (spapr w));
                console := console w |}.
Proof.
  intros [Hwd Hwe Hd He].
  set (w1 := {| spapr := with_mig (spapr w) (eff (spapr w));
                console := console w |}).
  rewrite (bind_Return _ _ w 0 w1) by reflexivity.
  erewrite post_migration_run by apply source_caps_run.
  destruct (equal_caps_no_reports
              (fold_left (reconstruct_step (spapr w1)) (seq 0 SPAPR_CAP_NUM)
                 (default_caps_value h (cpu_type (spapr w1))
                    (default_caps (smc (spapr w1)))
                    (max_compat_pvr (spapr w1))))
              (eff (spapr w1))) as [Hnone Hlow].
  { intros i Hi. cbn [spapr w1 with_mig cpu_type smc max_compat_pvr eff].
    fold (computed_defaults h (spapr w)). rewrite <- Hd.
    rewrite reconstruct_fold_lookup by (rewrite Hwd; exact Hi).
    rewrite bool_decide_eq_true_2 by (apply in_range_seq; exact Hi).
    cbn [mig def with_mig andb].
    destruct (caps (eff (spapr w)) !!! i =? caps (def (spapr w)) !!! i)
      eqn:E; [|reflexivity].
    apply Z.eqb_eq in E. simpl. now rewrite E. }
  rewrite Hnone, Hlow. unfold add_reports. simpl. now rewrite app_nil_r.
Qed.

Lemma loopback_check_witness :
  bind spapr_caps_pre_save
    (fun _ => spapr_caps_post_migration Examples.host_kvm)
    Samples.initialized_world
  = Return 0
      {| spapr := with_mig (spapr Samples.initialized_world)
                    (eff (spapr Samples.initialized_world));
         console := console Samples.initialized_world |}.
Proof.
  apply (loopback_check Examples.host_kvm Samples.initialized_world).
  exact initialized_sample.
Defined.

(** X5: raising levels on the destination never turns an accepted stream
    into a refused one: if the check returns 0 against an effective set, it
    returns 0 against every effective set that is at least as high at each
    capability. *)
Theorem check_monotone_in_destination (h : Host) (w : World)
    (eff' : sPAPRCapabilities) :
  (forall i, (i < SPAPR_CAP_NUM)%nat ->
     caps (eff (spapr w)) !!! i <= caps eff' !!! i) ->
  exists r1 r2 w1 w2,
    spapr_caps_post_migration h w = Return r1 w1
    /\ spapr_caps_post_migration h
         {| spapr := with_eff (spapr w) eff'; console := console w |}
       = Return r2 w2
    /\ (r1 = 0 -> r2 = 0).
Proof.
  intros Hle. eexists _, _, _, _.
  split; [apply post_migration_run, source_caps_run|].
  split; [apply post_migration_run, source_caps_run|].
  cbn [spapr with_eff eff mig def smc cpu_type max_compat_pvr].
  change (reconstruct_step (with_eff (spapr w) eff'))
    with (reconstruct_step (spapr w)).
  set (src := fold_left _ _ _).
  destruct (higher_somewhere src eff' _) eqn:E2; [|reflexivity].
  apply higher_somewhere_iff in E2. destruct E2 as (i & Hi & Hgt).
  destruct (higher_somewhere src (eff (spapr w)) _) eqn:E1.
  - unfold EINVAL. discriminate.
  - assert (higher_somewhere src (eff (spapr w)) (seq 0 SPAPR_CAP_NUM)
            = true) as Habs; [|congruence].
    apply higher_somewhere_iff. exists i. split; [exact Hi|].
    specialize (Hle i Hi). lia.
Qed.

Lemma check_monotone_in_destination_witness :
  exists r1 r2 w1 w2,
    spapr_caps_post_migration Examples.host_kvm
      {| spapr := with_mig Samples.initialized_machine
                    (def Samples.initialized_machine);
         console := [] |}
    = Return r1 w1
    /\ spapr_caps_post_migration Examples.host_kvm
         {| spapr := with_eff (with_mig Samples.initialized_machine
                                 (def Samples.initialized_machine))
                       {| caps := [1; 1; 1; 2; 2; 3; 24; 1] |};
            console := [] |}
       = Return r2 w2
    /\ (r1 = 0 -> r2 = 0).
Proof.
  apply (check_monotone_in_destination Examples.host_kvm
           {| spapr := with_mig Samples.initialized_machine
                         (def Samples.initialized_machine);
              console := [] |}
           {| caps := [1; 1; 1; 2; 2; 3; 24; 1] |}).
  intros i Hi.
  destruct i as [|[|[|[|[|[|[|[|i]]]]]]]]; vm_compute; discriminate.
Defined.

(** X6: on an initialised machine the section of a capability goes into the
    stream exactly when its effective level differs from its default: the
    command-line flag the test also asks for is then always set. *)
Theorem needed_iff_not_default (h : Host) (s : sPAPRMachineState) (i : nat) :
  initialized h s ->
  (i < SPAPR_CAP_NUM)%nat ->
  spapr_cap_needed i s = negb (caps (eff s) !!! i =? caps (def s) !!! i).
Proof.
  intros [_ _ _ He] Hi. unfold spapr_cap_needed.
  destruct (cmd_line_caps s !!! i) eqn:Ef; [reflexivity|].
  rewrite (He i Hi Ef), Z.eqb_refl. reflexivity.
Qed.

Lemma needed_iff_not_default_witness :
  spapr_cap_cfpc_needed Samples.initialized_machine
  = negb (caps (eff Samples.initialized_machine) !!! SPAPR_CAP_CFPC
          =? caps (def Samples.initialized_machine) !!! SPAPR_CAP_CFPC).
Proof.
  apply (needed_iff_not_default Examples.host_kvm
           Samples.initialized_machine SPAPR_CAP_CFPC initialized_sample).
  cbv [SPAPR_CAP_NUM SPAPR_CAP_NESTED_KVM_HV SPAPR_CAP_CFPC]. lia.
Defined.

(** ** Setting, then getting *)

Lemma get_after_set_level w cap v :
  (index cap < length (caps (eff (spapr w))))%nat ->
  spapr_get_cap (spapr (set_level w cap v)) (index cap) = v.
Proof.
  intros Hi. unfold spapr_get_cap, set_level. simpl.
  now apply list_lookup_total_insert_eq.
Qed.

(** X7: a boolean capability reads back as it was set: after
    spapr_cap_set_bool stored a value, spapr_cap_get_bool visits that
    value. *)
Theorem bool_round_trip (cap : sPAPRCapabilityInfo) (v : Visitor)
    (value : bool) (w : World) :
  visit_type_bool v = inr value ->
  (index cap < length (caps (eff (spapr w))))%nat ->
  bind (spapr_cap_set_bool cap v) (fun _ => spapr_cap_get_bool cap) w
  = Return (inr (visited_bool value))
      (set_level w cap (if value then SPAPR_CAP_ON else SPAPR_CAP_OFF)).
Proof.
  intros Hv Hi. unfold spapr_cap_set_bool. rewrite Hv.
  rewrite (bind_Return _ _ w None
             (set_level w cap (if value then SPAPR_CAP_ON else SPAPR_CAP_OFF)))
    by reflexivity.
  unfold spapr_cap_get_bool, bind, get_spapr, ret.
  rewrite get_after_set_level by exact Hi.
  now destruct value.
Qed.

Lemma bool_round_trip_witness :
  exists cap,
    capability_table !! SPAPR_CAP_VSX = Some cap
    /\ bind (spapr_cap_set_bool cap (Samples.bool_visitor false))
         (fun _ => spapr_cap_get_bool cap) Examples.world
       = Return (inr (visited_bool false))
           (set_level Examples.world cap SPAPR_CAP_OFF).
Proof.
  eexists. split; [reflexivity|].
  refine (bool_round_trip _ (Samples.bool_visitor false) false
            Examples.world eq_refl _).
  vm_compute. lia.
Defined.

Lemma set_string_accepts cap p v val (i : nat) label w :
  wf_possible p ->
  possible cap = Some p ->
  visit_type_str v = inr val ->
  vals p !! i = Some label ->
  strcasecmp val label = 0 ->
  spapr_cap_set_string cap v w = Return None (set_level w cap (Z.of_nat i)).
Proof.
  intros Hwf Hp Hv Hl Hmatch. unfold spapr_cap_set_string. rewrite Hv, Hp.
  destruct (strcmp val "?" =? 0) eqn:E.
  - exfalso. apply Z.eqb_eq, strcmp_0_strcasecmp_0, strcasecmp_0_iff in E.
    apply strcasecmp_0_iff in Hmatch. rewrite Hmatch in E.
    apply (wf_no_query p Hwf label); [|exact E].
    apply list_elem_of_lookup. eauto.
  - rewrite (bind_Return _ _ w true (set_level w cap (Z.of_nat i)));
      [reflexivity|].
    apply (set_string_scan_found cap p val w i label Hwf Hl Hmatch 257 0).
    + lia.
    + apply lookup_lt_Some in Hl. rewrite (wf_vals p Hwf) in Hl.
      pose proof (wf_num p Hwf). lia.
    + intros k l Hk Hlk Hkmatch.
      apply strcasecmp_0_iff in Hmatch, Hkmatch.
      assert (k = i); [|lia].
      apply (NoDup_lookup _ k i (casefold val) (wf_distinct p Hwf)).
      * rewrite list_lookup_fmap, Hlk. simpl. now rewrite Hkmatch.
      * rewrite list_lookup_fmap, Hl. simpl. now rewrite Hmatch.
Qed.

(** X8: an enumerated capability reads back as the label it was set to,
    in the table's spelling: after spapr_cap_set_string accepted a value
    that matches a label up to case, spapr_cap_get_string visits that
    label. *)
Theorem string_round_trip (cap : sPAPRCapabilityInfo) (p : sPAPRCapPossible)
    (v : Visitor) (val : string) (i : nat) (label : string) (w : World) :
  cap ∈ capability_table ->
  possible cap = Some p ->
  visit_type_str v = inr val ->
  vals p !! i = Some label ->
  strcasecmp val label = 0 ->
  (index cap < length (caps (eff (spapr w))))%nat ->
  bind (spapr_cap_set_string cap v) (fun _ => spapr_cap_get_string cap) w
  = Return (inr (visited_str label)) (set_level w cap (Z.of_nat i)).
Proof.
  intros Hin Hp Hv Hl Hmatch Hi.
  pose proof (registered_possible_wf cap p Hin Hp) as Hwf.
  rewrite (bind_Return _ _ w None (set_level w cap (Z.of_nat i)))
    by (eapply set_string_accepts; eassumption).
  unfold spapr_cap_get_string, bind, get_spapr. cbv beta.
  rewrite get_after_set_level by exact Hi. rewrite Hp.
  assert (Z.of_nat i < num p) as Hlt.
  { apply lookup_lt_Some in Hl. rewrite (wf_vals p Hwf) in Hl.
    pose proof (wf_num p Hwf). lia. }
  destruct (Z.of_nat i >=? num p) eqn:E; [lia|].
  rewrite (vals_at_lookup p i label _ Hwf Hl). reflexivity.
Qed.

Lemma string_round_trip_witness :
  exists cap,
    capability_table !! SPAPR_CAP_IBS = Some cap
    /\ bind (spapr_cap_set_string cap (Examples.str_visitor "Fixed-CCD"))
         (fun _ => spapr_cap_get_string cap) Examples.world
       = Return (inr (visited_str "fixed-ccd"))
           (set_level Examples.world cap 3).
Proof.
  eexists. split; [reflexivity|].
  match goal with
  | |- context [spapr_cap_get_string ?c] =>
      refine (string_round_trip c cap_ibs_possible
                (Examples.str_visitor "Fixed-CCD") "Fixed-CCD" 3 "fixed-ccd"
                Examples.world _ eq_refl eq_refl eq_refl eq_refl _)
  end.
  - apply (list_elem_of_lookup_2 _ SPAPR_CAP_IBS). reflexivity.
  - vm_compute. lia.
Defined.

(** X9: a page-size capability reads back as the size it was set to: after
    spapr_cap_set_pagesize accepted the power of two 2^k, k below 64,
    spapr_cap_get_pagesize visits 2^k. *)
Theorem pagesize_round_trip (cap : sPAPRCapabilityInfo) (v : Visitor)
    (k : Z) (w : World) :
  0 <= k < 64 ->
  visit_type_size v = inr (2 ^ k) ->
  (index cap < length (caps (eff (spapr w))))%nat ->
  bind (spapr_cap_set_pagesize cap v) (fun _ => spapr_cap_get_pagesize cap) w
  = Return (inr (visited_size (2 ^ k))) (set_level w cap k).
Proof.
  intros Hk Hv Hi.
  assert (spapr_cap_set_pagesize cap v w = Return None (set_level w cap k))
    as Hset.
  { unfold spapr_cap_set_pagesize. rewrite Hv.
    rewrite is_power_of_2_pow2 by lia. cbn [negb].
    rewrite ctz64_pow2 by exact Hk.
    replace (uint8 k) with k by (unfold uint8; rewrite Z.mod_small; lia).
    apply store_level_run. }
  rewrite (bind_Return _ _ w None (set_level w cap k) Hset).
  unfold spapr_cap_get_pagesize, bind at 1, get_spapr at 1.
  rewrite get_after_set_level by exact Hi.
  unfold bind, shl1_64.
  destruct (0 <=? k) eqn:E1; [|lia]. destruct (k <? 64) eqn:E2; [|lia].
  simpl. unfold ret. rewrite Z.shiftl_1_l. reflexivity.
Qed.

Lemma pagesize_round_trip_witness :
  exists cap,
    capability_table !! SPAPR_CAP_HPT_MAXPAGESIZE = Some cap
    /\ bind (spapr_cap_set_pagesize cap (Examples.size_visitor (2 ^ 24)))
         (fun _ => spapr_cap_get_pagesize cap) Examples.world
       = Return (inr (visited_size (2 ^ 24))) (set_level Examples.world cap 24).
Proof.
  eexists. split; [reflexivity|].
  refine (pagesize_round_trip _ (Examples.size_visitor (2 ^ 24)) 24
            Examples.world _ eq_refl _).
  - lia.
  - vm_compute. lia.
Defined.

(** X10: spapr_cap_get_string decodes the effective level of a registered
    enumerated capability: a level below the number of labels is visited as
    the label at that index, a level at or beyond it is an error that names
    the level and the capability; either way the state is left alone. *)
Theorem get_string_decodes (cap : sPAPRCapabilityInfo)
    (p : sPAPRCapPossible) (w : World) :
  cap ∈ capability_table ->
  possible cap = Some p ->
  0 <= spapr_get_cap (spapr w) (index cap) ->
  (spapr_get_cap (spapr w) (index cap) < num p ->
   exists label,
     vals p !! Z.to_nat (spapr_get_cap (spapr w) (index cap)) = Some label
     /\ spapr_cap_get_string cap w = Return (inr (visited_str label)) w)
  /\ (num p <= spapr_get_cap (spapr w) (index cap) ->
      spapr_cap_get_string cap w
      = Return (inl ("Invalid value ("
                     +:+ pretty (spapr_get_cap (spapr w) (index cap))
                     +:+ ") for cap-" +:+ name cap)) w).
Proof.
  intros Hin Hp Hpos.
  pose proof (registered_possible_wf cap p Hin Hp) as Hwf.
  unfold spapr_cap_get_string, bind, get_spapr. cbv beta. rewrite Hp.
  set (value := spapr_get_cap (spapr w) (index cap)) in *. split.
  - intros Hlt. destruct (value >=? num p) eqn:E; [lia|].
    destruct (lookup_lt_is_Some_2 (vals p) (Z.to_nat value)) as [label Hl].
    { rewrite (wf_vals p Hwf). lia. }
    exists label. split; [exact Hl|].
    rewrite (vals_at_run p value label w) by (try exact Hl; lia).
    reflexivity.
  - intros Hge. destruct (value >=? num p) eqn:E; [reflexivity | lia].
Qed.

Lemma get_string_decodes_witness :
  exists cap,
    capability_table !! SPAPR_CAP_CFPC = Some cap
    /\ spapr_cap_get_string cap Examples.world
       = Return (inr (visited_str "workaround")) Examples.world
    /\ spapr_cap_get_string cap
         {| spapr := with_eff Examples.machine
                       {| caps := [0; 1; 1; 7; 0; 2; 16; 0] |};
            console := [] |}
       = Return (inl "Invalid value (7) for cap-cfpc")
           {| spapr := with_eff Examples.machine
                         {| caps := [0; 1; 1; 7; 0; 2; 16; 0] |};
              console := [] |}.
Proof.
  eexists. split; [reflexivity|].
  match goal with
  | |- context [spapr_cap_get_string ?c] =>
      assert (c ∈ capability_table) as Hin
        by (apply (list_elem_of_lookup_2 _ SPAPR_CAP_CFPC); reflexivity)
  end.
  split.
  - destruct (proj1 (get_string_decodes _ cap_cfpc_possible Examples.world
                       Hin eq_refl ltac:(vm_compute; discriminate)))
      as (label & Hl & Hrun); [reflexivity|].
    vm_compute in Hl. injection Hl as <-. exact Hrun.
  - apply (proj2 (get_string_decodes _ cap_cfpc_possible
                    {| spapr := with_eff Examples.machine
                                  {| caps := [0; 1; 1; 7; 0; 2; 16; 0] |};
                       console := [] |}
                    Hin eq_refl ltac:(vm_compute; discriminate))).
    vm_compute. discriminate.
Defined.

(** ** The registry and its setters *)

Lemma table_index i cap :
  capability_table !! i = Some cap -> index cap = i.
Proof.
  intros Hcap.
  destruct i as [|[|[|[|[|[|[|[|i]]]]]]]]; [..|discriminate Hcap];
    injection Hcap as <-; reflexivity.
Qed.

Lemma table_string_possible cap :
  cap ∈ capability_table -> set cap = set_string -> is_Some (possible cap).
Proof.
  intros Hin Hset. apply list_elem_of_In in Hin. simpl in Hin.
  repeat (destruct Hin as [<- | Hin];
          [first [discriminate Hset | simpl; eauto]|]).
  destruct Hin.
Qed.

(** X11: the table is consistent: the index field of every entry is the
    entry's position, a label table is present exactly in the entries whose
    setter is spapr_cap_set_string, and no two entries share a name. *)
Theorem capability_table_consistent (i : nat) (cap : sPAPRCapabilityInfo) :
  capability_table !! i = Some cap ->
  index cap = i
  /\ (i < SPAPR_CAP_NUM)%nat
  /\ (set cap = set_string <-> is_Some (possible cap))
  /\ (forall j cap', capability_table !! j = Some cap' ->
        name cap' = name cap -> j = i).
Proof.
  intros Hcap.
  destruct i as [|[|[|[|[|[|[|[|i]]]]]]]]; [..|discriminate Hcap].
  all: injection Hcap as <-.
  all: split; [reflexivity|].
  all: split; [cbv [SPAPR_CAP_NUM SPAPR_CAP_NESTED_KVM_HV]; lia|].
  all: split;
    [ simpl; split; [intros E; try discriminate E; eauto
                    | intros [p E]; try discriminate E; reflexivity]
    | ].
  all: intros j cap' Hj Hname;
    destruct j as [|[|[|[|[|[|[|[|j]]]]]]]]; [..|discriminate Hj];
    injection Hj as <-; first [reflexivity | discriminate Hname].
Qed.

Lemma capability_table_consistent_witness :
  exists cap,
    capability_table !! SPAPR_CAP_SBBC = Some cap
    /\ index cap = SPAPR_CAP_SBBC
    /\ (SPAPR_CAP_SBBC < SPAPR_CAP_NUM)%nat
    /\ (set cap = set_string <-> is_Some (possible cap))
    /\ (forall j cap', capability_table !! j = Some cap' ->
          name cap' = name cap -> j = SPAPR_CAP_SBBC).
Proof.
  eexists. split; [reflexivity|].
  apply (capability_table_consistent SPAPR_CAP_SBBC). reflexivity.
Defined.

Lemma set_string_scan_cases cap p val w :
  wf_possible p ->
  forall fuel (i : nat),
    (Z.to_nat (num p) - i < fuel)%nat ->
    set_string_scan cap p val (Z.of_nat i) fuel w = Return false w
    \/ exists j : nat,
         Z.of_nat j < num p
         /\ set_string_scan cap p val (Z.of_nat i) fuel w
            = Return true (set_level w cap (Z.of_nat j)).
Proof.
  intros Hwf. pose proof (wf_num p Hwf) as Hnum.
  induction fuel as [|fuel IH]; intros i Hfuel; [lia|].
  simpl. destruct (Z.of_nat i <? num p) eqn:Ei; [|left; reflexivity].
  destruct (lookup_lt_is_Some_2 (vals p) i) as [l Hli].
  { rewrite (wf_vals p Hwf). lia. }
  erewrite bind_Return by (eapply vals_at_lookup; eassumption).
  destruct (strcasecmp val l =? 0) eqn:El.
  - right. exists i. split; [lia | reflexivity].
  - replace (uint8 (Z.of_nat i + 1)) with (Z.of_nat (S i))
      by (unfold uint8; rewrite Z.mod_small; lia).
    apply IH. lia.
Qed.

Lemma ctz_from_range fuel val i :
  i <= ctz_from fuel val i <= i + Z.of_nat fuel.
Proof.
  revert i. induction fuel as [|fuel IH]; intros i; simpl; [lia|].
  destruct (Z.testbit val i); [lia|]. specialize (IH (i + 1)). lia.
Qed.

Lemma ctz64_range val : 0 <= ctz64 val <= 64.
Proof.
  unfold ctz64. destruct (val =? 0); [lia|].
  pose proof (ctz_from_range 64 val 0). lia.
Qed.

Lemma property_set_outcome i cap v w :
  capability_table !! i = Some cap ->
  exists e w', property_set cap v w = Return e w'
               /\ setter_outcome cap w e w'.
Proof.
  intros Hcap.
  assert (cap ∈ capability_table) as Hin
    by (eapply list_elem_of_lookup_2; exact Hcap).
  unfold property_set. destruct (set cap) eqn:Eset.
  - unfold spapr_cap_set_bool. destruct (visit_type_bool v) as [err|value].
    + eexists _, _. split; [reflexivity|]. left. split; [discriminate|reflexivity].
    + eexists _, _. split; [apply store_level_run|]. right.
      split; [reflexivity|]. eexists. split; [|reflexivity].
      destruct value; unfold SPAPR_CAP_ON, SPAPR_CAP_OFF; lia.
  - destruct (table_string_possible cap Hin Eset) as [p Hp].
    pose proof (registered_possible_wf cap p Hin Hp) as Hwf.
    unfold spapr_cap_set_string. rewrite Hp.
    destruct (visit_type_str v) as [err|val].
    + eexists _, _. split; [reflexivity|]. left. split; [discriminate|reflexivity].
    + destruct (strcmp val "?" =? 0).
      * eexists _, _. split; [reflexivity|]. left.
        split; [discriminate|reflexivity].
      * destruct (set_string_scan_cases cap p val w Hwf 257 0) as [Hno|Hyes].
        { pose proof (wf_num p Hwf). lia. }
        -- rewrite (bind_Return _ _ w false w Hno).
           eexists _, _. split; [reflexivity|]. left.
           split; [discriminate|reflexivity].
        -- destruct Hyes as (j & Hj & Hrun).
           rewrite (bind_Return _ _ w true _ Hrun).
           eexists _, _. split; [reflexivity|]. right.
           split; [reflexivity|]. eexists. split; [|reflexivity].
           pose proof (wf_num p Hwf). lia.
  - unfold spapr_cap_set_pagesize.
    destruct (visit_type_size v) as [err|pagesize].
    + eexists _, _. split; [reflexivity|]. left. split; [discriminate|reflexivity].
    + destruct (is_power_of_2 pagesize); cbn [negb].
      * eexists _, _. split; [apply store_level_run|]. right.
        split; [reflexivity|]. eexists. split; [|reflexivity].
        apply uint8_range.
      * eexists _, _. split; [reflexivity|]. left.
        split; [discriminate|reflexivity].
Qed.

(** X12: the setter of a registered capability always returns, and it
    touches nothing but its own capability: with an error the world is as
    before; with no error one level that fits a uint8_t is stored for the
    capability and its command-line flag is set, while the stored defaults,
    the incoming set, the console and the level and flag of every other
    capability stay as they were. *)
Theorem property_set_frame (i : nat) (cap : sPAPRCapabilityInfo)
    (v : Visitor) (w : World) :
  capability_table !! i = Some cap ->
  exists e w',
    property_set cap v w = Return e w'
    /\ setter_outcome cap w e w'
    /\ def (spapr w') = def (spapr w)
    /\ mig (spapr w') = mig (spapr w)
    /\ console w' = console w
    /\ (forall j, j <> i ->
          caps (eff (spapr w')) !!! j = caps (eff (spapr w)) !!! j
          /\ cmd_line_caps (spapr w') !!! j = cmd_line_caps (spapr w) !!! j)
    /\ (e = None -> (i < length (cmd_line_caps (spapr w)))%nat ->
        cmd_line_caps (spapr w') !!! i = true).
Proof.
  intros Hcap.
  destruct (property_set_outcome i cap v w Hcap) as (e & w' & Hrun & Hout).
  pose proof (table_index i cap Hcap) as Hidx.
  exists e, w'. split; [exact Hrun|]. split; [exact Hout|].
  destruct Hout as [[He ->] | [-> (lvl & _ & ->)]].
  - repeat split; try reflexivity. intros E. contradiction.
  - unfold set_level. simpl. rewrite Hidx. repeat split.
    + apply list_lookup_total_insert_ne. congruence.
    + apply list_lookup_total_insert_ne. congruence.
    + intros _ Hlen. now apply list_lookup_total_insert_eq.
Qed.

Lemma property_set_frame_witness :
  exists cap e w',
    capability_table !! SPAPR_CAP_DFP = Some cap
    /\ property_set cap (Samples.bool_visitor false) Examples.world
       = Return e w'
    /\ setter_outcome cap Examples.world e w'
    /\ def (spapr w') = def (spapr Examples.world)
    /\ mig (spapr w') = mig (spapr Examples.world)
    /\ console w' = console Examples.world
    /\ (forall j, j <> SPAPR_CAP_DFP ->
          caps (eff (spapr w')) !!! j
          = caps (eff (spapr Examples.world)) !!! j
          /\ cmd_line_caps (spapr w') !!! j
             = cmd_line_caps (spapr Examples.world) !!! j)
    /\ (e = None ->
        (SPAPR_CAP_DFP < length (cmd_line_caps (spapr Examples.world)))%nat ->
        cmd_line_caps (spapr w') !!! SPAPR_CAP_DFP = true).
Proof.
  eexists.
  match goal with
  | |- exists e w', _ !! _ = Some ?c /\ _ =>
      destruct (property_set_frame SPAPR_CAP_DFP c
                  (Samples.bool_visitor false) Examples.world eq_refl)
        as (e & w' & H)
  end.
  exists e, w'. split; [reflexivity | exact H].
Defined.

(** ** The default policy *)

(** A well-formed capability set, entry by entry. *)
Lemma wf_caps_inv c :
  wf_caps c ->
  exists c0 c1 c2 c3 c4 c5 c6 c7,
    c = {| caps := [c0; c1; c2; c3; c4; c5; c6; c7] |}.
Proof.
  destruct c as [l]. unfold wf_caps. simpl. intros Hlen.
  do 8 (destruct l as [|? l]; [discriminate Hlen|]).
  destruct l; [|discriminate Hlen]. eauto 10.
Qed.

Lemma default_caps_value_entries h cputype base max_pvr :
  wf_caps base ->
  let ok pvr := ppc_type_check_compat h cputype pvr 0 max_pvr in
  let c := default_caps_value h cputype base max_pvr in
  caps c !!! SPAPR_CAP_HTM
  = (if ok CPU_POWERPC_LOGICAL_2_07 then caps base !!! SPAPR_CAP_HTM else 0)
  /\ caps c !!! SPAPR_CAP_VSX
     = (if ok CPU_POWERPC_LOGICAL_2_06 then caps base !!! SPAPR_CAP_VSX else 0)
  /\ caps c !!! SPAPR_CAP_DFP
     = (if ok CPU_POWERPC_LOGICAL_2_06 then caps base !!! SPAPR_CAP_DFP else 0)
  /\ caps c !!! SPAPR_CAP_CFPC
     = (if ok CPU_POWERPC_LOGICAL_2_07 then caps base !!! SPAPR_CAP_CFPC else 0)
  /\ caps c !!! SPAPR_CAP_SBBC
     = (if ok CPU_POWERPC_LOGICAL_2_06_PLUS
        then caps base !!! SPAPR_CAP_SBBC else 0)
  /\ caps c !!! SPAPR_CAP_IBS
     = (if ok CPU_POWERPC_LOGICAL_2_06 then caps base !!! SPAPR_CAP_IBS else 0)
  /\ caps c !!! SPAPR_CAP_HPT_MAXPAGESIZE
     = (if caps base !!! SPAPR_CAP_HPT_MAXPAGESIZE =? 0
        then if kvmppc_hpt_needs_host_contiguous_pages h
             then uint8 (ctz64 (uint64 (qemu_getrampagesize h)))
             else 34
        else caps base !!! SPAPR_CAP_HPT_MAXPAGESIZE)
  /\ caps c !!! SPAPR_CAP_NESTED_KVM_HV
     = caps base !!! SPAPR_CAP_NESTED_KVM_HV.
Proof.
  intros Hwf ok c. subst ok c.
  destruct (wf_caps_inv base Hwf)
    as (c0 & c1 & c2 & c3 & c4 & c5 & c6 & c7 & ->).
  unfold default_caps_value.
  destruct (ppc_type_check_compat h cputype CPU_POWERPC_LOGICAL_2_07 _ _),
    (ppc_type_check_compat h cputype CPU_POWERPC_LOGICAL_2_06_PLUS _ _),
    (ppc_type_check_compat h cputype CPU_POWERPC_LOGICAL_2_06 _ _);
    cbn -[Z.eqb uint8 ctz64 uint64];
    destruct (c6 =? 0); cbn -[uint8 ctz64 uint64]; repeat split.
Qed.

(** X13: default_caps_with_cpu only ever lowers: a capability whose
    compatibility threshold the cpu meets, or that has none, keeps the
    machine class's default, and one whose threshold the cpu misses is at
    level 0; hpt-max-page-size apart, no level differs from the class
    default unless it is 0, and when the cpu meets all three thresholds and
    the class sets a page-size limit the result is the class's set. *)
Theorem default_caps_only_lower (h : Host) (cputype : string) (w : World) :
  wf_caps (default_caps (smc (spapr w))) ->
  exists c,
    default_caps_with_cpu h cputype w = Return c w
    /\ wf_caps c
    /\ (forall i, (i < SPAPR_CAP_NUM)%nat -> i <> SPAPR_CAP_HPT_MAXPAGESIZE ->
          caps c !!! i
          = match threshold i with
            | Some pvr =>
                if ppc_type_check_compat h cputype pvr 0
                     (max_compat_pvr (spapr w))
                then caps (default_caps (smc (spapr w))) !!! i
                else 0
            | None => caps (default_caps (smc (spapr w))) !!! i
            end)
    /\ (forall i, (i < SPAPR_CAP_NUM)%nat -> i <> SPAPR_CAP_HPT_MAXPAGESIZE ->
          caps c !!! i = caps (default_caps (smc (spapr w))) !!! i
          \/ caps c !!! i = 0)
    /\ ((forall pvr, ppc_type_check_compat h cputype pvr 0
                       (max_compat_pvr (spapr w)) = true) ->
        caps (default_caps (smc (spapr w))) !!! SPAPR_CAP_HPT_MAXPAGESIZE
        <> 0 ->
        c = default_caps (smc (spapr w))).
Proof.
  intros Hwf. eexists. split; [apply default_caps_with_cpu_run|].
  pose proof (default_caps_value_wf h cputype _
                (max_compat_pvr (spapr w)) Hwf) as Hwfc.
  split; [exact Hwfc|].
  destruct (default_caps_value_entries h cputype _
              (max_compat_pvr (spapr w)) Hwf)
    as (E0 & E1 & E2 & E3 & E4 & E5 & E6 & E7).
  assert (forall i, (i < SPAPR_CAP_NUM)%nat -> i <> SPAPR_CAP_HPT_MAXPAGESIZE ->
            caps (default_caps_value h cputype (default_caps (smc (spapr w)))
                    (max_compat_pvr (spapr w))) !!! i
            = match threshold i with
              | Some pvr =>
                  if ppc_type_check_compat h cputype pvr 0
                       (max_compat_pvr (spapr w))
                  then caps (default_caps (smc (spapr w))) !!! i
                  else 0
              | None => caps (default_caps (smc (spapr w))) !!! i
              end) as Hentries.
  { intros i Hi Hne.
    destruct i as [|[|[|[|[|[|[|[|i]]]]]]]]; try assumption.
    - exfalso. apply Hne. reflexivity.
    - cbv [SPAPR_CAP_NUM SPAPR_CAP_NESTED_KVM_HV] in Hi. lia. }
  split; [exact Hentries|]. split.
  - intros i Hi Hne. rewrite (Hentries i Hi Hne).
    destruct (threshold i) as [pvr|]; [|left; reflexivity].
    destruct (ppc_type_check_compat h cputype pvr 0 _); [left|right];
      reflexivity.
  - intros Hok Hhpt. apply caps_ext; [exact Hwfc | exact Hwf |].
    intros i Hi.
    destruct (decide (i = SPAPR_CAP_HPT_MAXPAGESIZE)) as [->|Hne].
    + rewrite E6. apply Z.eqb_neq in Hhpt. now rewrite Hhpt.
    + rewrite (Hentries i Hi Hne).
      destruct (threshold i) as [pvr|]; [|reflexivity].
      now rewrite Hok.
Qed.

Lemma default_caps_only_lower_witness :
  exists c,
    default_caps_with_cpu Examples.host_kvm "power8_v2.0-powerpc64-cpu"
      Examples.world = Return c Examples.world
    /\ caps c = [0; 1; 1; 0; 0; 0; 16; 0].
Proof.
  destruct (default_caps_only_lower Examples.host_kvm
              "power8_v2.0-powerpc64-cpu" Examples.world eq_refl)
    as (c & Hrun & _).
  exists c. split; [exact Hrun|].
  rewrite default_caps_with_cpu_run in Hrun.
  apply Return_inj in Hrun as [<- _]. reflexivity.
Defined.

(** X14: the page-size limit of the defaults: a class default other than 0
    is kept; a class default of 0 (pseries-2.12 and older) is replaced by 34
    when KVM does not need host-contiguous pages, and otherwise by the
    number of trailing zero bits of the host's RAM page size, which is at
    most 64 and is k when that page size is 2^k. *)
Theorem default_caps_page_size (h : Host) (cputype : string) (w : World) :
  wf_caps (default_caps (smc (spapr w))) ->
  exists c,
    default_caps_with_cpu h cputype w = Return c w
    /\ (caps (default_caps (smc (spapr w))) !!! SPAPR_CAP_HPT_MAXPAGESIZE <> 0 ->
        caps c !!! SPAPR_CAP_HPT_MAXPAGESIZE
        = caps (default_caps (smc (spapr w))) !!! SPAPR_CAP_HPT_MAXPAGESIZE)
    /\ (caps (default_caps (smc (spapr w))) !!! SPAPR_CAP_HPT_MAXPAGESIZE = 0 ->
        0 <= caps c !!! SPAPR_CAP_HPT_MAXPAGESIZE <= 64
        /\ (kvmppc_hpt_needs_host_contiguous_pages h = false ->
            caps c !!! SPAPR_CAP_HPT_MAXPAGESIZE = 34)
        /\ (kvmppc_hpt_needs_host_contiguous_pages h = true ->
            forall k, 0 <= k < 64 -> qemu_getrampagesize h = 2 ^ k ->
              caps c !!! SPAPR_CAP_HPT_MAXPAGESIZE = k)).
Proof.
  intros Hwf. eexists. split; [apply default_caps_with_cpu_run|].
  destruct (default_caps_value_entries h cputype _
              (max_compat_pvr (spapr w)) Hwf)
    as (_ & _ & _ & _ & _ & _ & E6 & _).
  rewrite E6. split.
  - intros Hne. apply Z.eqb_neq in Hne. now rewrite Hne.
  - intros ->. rewrite Z.eqb_refl.
    pose proof (ctz64_range (uint64 (qemu_getrampagesize h))) as Hr.
    assert (uint8 (ctz64 (uint64 (qemu_getrampagesize h)))
            = ctz64 (uint64 (qemu_getrampagesize h))) as Hu
      by (unfold uint8; rewrite Z.mod_small; lia).
    split; [|split].
    + destruct (kvmppc_hpt_needs_host_contiguous_pages h); lia.
    + now intros ->.
    + intros -> k Hk Hpage. rewrite Hu, Hpage.
      assert (0 < 2 ^ k < 2 ^ 64) as Hp.
      { split; [apply Z.pow_pos_nonneg; lia|].
        apply Z.pow_lt_mono_r; lia. }
      unfold uint64. rewrite Z.mod_small by lia. now apply ctz64_pow2.
Qed.

Lemma default_caps_page_size_witness :
  exists c,
    default_caps_with_cpu Examples.host_kvm "power8_v2.0-powerpc64-cpu"
      {| spapr := {| smc := {| default_caps :=
                                 {| caps := [0; 1; 1; 0; 0; 0; 0; 0] |} |};
                     cpu_type := "power8_v2.0-powerpc64-cpu";
                     max_compat_pvr := 0;
                     cmd_line_caps := [];
                     def := {| caps := [] |};
                     eff := {| caps := [] |};
                     mig := {| caps := [] |} |};
         console := [] |}
    = Return c
        {| spapr := {| smc := {| default_caps :=
                                   {| caps := [0; 1; 1; 0; 0; 0; 0; 0] |} |};
                       cpu_type := "power8_v2.0-powerpc64-cpu";
                       max_compat_pvr := 0;
                       cmd_line_caps := [];
                       def := {| caps := [] |};
                       eff := {| caps := [] |};
                       mig := {| caps := [] |} |};
           console := [] |}
    /\ caps c !!! SPAPR_CAP_HPT_MAXPAGESIZE = 16.
Proof.
  match goal with
  | |- exists c, default_caps_with_cpu ?h ?t ?w = _ /\ _ =>
      destruct (default_caps_page_size h t w eq_refl)
        as (c & Hrun & _ & Hzero)
  end.
  exists c. split; [exact Hrun|].
  destruct (Hzero eq_refl) as (_ & _ & Hk).
  apply (Hk eq_refl 16); [lia | reflexivity].
Defined.

(** ** Applying levels *)

Lemma apply_level_0 i cap h w :
  capability_table !! i = Some cap ->
  i <> SPAPR_CAP_HPT_MAXPAGESIZE ->
  apply cap h 0 w = Return None w.
Proof.
  intros Hcap Hne.
  pose proof (uint8_range (kvmppc_get_cap_safe_cache h)) as Hc.
  pose proof (uint8_range (kvmppc_get_cap_safe_bounds_check h)) as Hs.
  destruct i as [|[|[|[|[|[|[|[|i]]]]]]]]; [..|discriminate Hcap].
  all: injection Hcap as <-.
  all: try reflexivity.
  - simpl. unfold cap_safe_cache_apply. simpl. rewrite andb_false_r.
    destruct (0 >? uint8 (kvmppc_get_cap_safe_cache h)) eqn:E; [lia|].
    now rewrite andb_false_r.
  - simpl. unfold cap_safe_bounds_check_apply. simpl. rewrite andb_false_r.
    destruct (0 >? uint8 (kvmppc_get_cap_safe_bounds_check h)) eqn:E; [lia|].
    now rewrite andb_false_r.
  - simpl. unfold cap_safe_indirect_branch_apply. simpl.
    now rewrite andb_false_r, andb_false_r.
  - exfalso. apply Hne. reflexivity.
Qed.

(** X15: forcing a default down is always legal: when the cpu misses the
    threshold of a capability, the level default_caps_with_cpu gives it
    passes that capability's apply function on every host. *)
Theorem forced_default_applies (h : Host) (cputype : string) (w : World)
    (i : nat) (cap : sPAPRCapabilityInfo) (pvr : LogicalPVR) :
  wf_caps (default_caps (smc (spapr w))) ->
  capability_table !! i = Some cap ->
  threshold i = Some pvr ->
  ppc_type_check_compat h cputype pvr 0 (max_compat_pvr (spapr w)) = false ->
  exists c,
    default_caps_with_cpu h cputype w = Return c w
    /\ forall h' w', apply cap h' (caps c !!! i) w' = Return None w'.
Proof.
  intros Hwf Hcap Hthr Hmiss. eexists.
  split; [apply default_caps_with_cpu_run|]. intros h' w'.
  assert (i <> SPAPR_CAP_HPT_MAXPAGESIZE) as Hne.
  { intros ->. discriminate Hthr. }
  destruct (default_caps_value_entries h cputype _
              (max_compat_pvr (spapr w)) Hwf)
    as (E0 & E1 & E2 & E3 & E4 & E5 & _ & _).
  assert (caps (default_caps_value h cputype (default_caps (smc (spapr w)))
                  (max_compat_pvr (spapr w))) !!! i = 0) as ->.
  { cbv beta zeta in E0, E1, E2, E3, E4, E5.
    destruct i as [|[|[|[|[|[|[|[|i]]]]]]]]; try discriminate Hthr;
      injection Hthr as <-; rewrite Hmiss in *;
      first [exact E0 | exact E1 | exact E2 | exact E3 | exact E4
            | exact E5]. }
  now apply (apply_level_0 i).
Qed.

Lemma forced_default_applies_witness :
  exists cap c,
    capability_table !! SPAPR_CAP_CFPC = Some cap
    /\ default_caps_with_cpu Examples.host_kvm "power8_v2.0-powerpc64-cpu"
         Examples.world = Return c Examples.world
    /\ forall h' w', apply cap h' (caps c !!! SPAPR_CAP_CFPC) w'
                     = Return None w'.
Proof.
  eexists.
  match goal with
  | |- exists c, _ !! _ = Some ?cap /\ _ =>
      destruct (forced_default_applies Examples.host_kvm
                  "power8_v2.0-powerpc64-cpu" Examples.world SPAPR_CAP_CFPC
                  cap CPU_POWERPC_LOGICAL_2_07 eq_refl eq_refl eq_refl
                  eq_refl) as (c & H)
  end.
  exists c. split; [reflexivity | exact H].
Defined.

(** X16: under TCG, htm, cfpc, sbbc, ibs and nested-hv can only be applied
    at level 0: each of their apply functions returns no error exactly at
    level 0, and htm, cfpc, sbbc and nested-hv answer every other level with
    an error. *)
Theorem tcg_accepts_only_level_0 (h : Host) (val : Z) (w : World) :
  tcg_enabled h = true ->
  (cap_htm_apply h val w = Return None w <-> val = 0)
  /\ (cap_safe_cache_apply h val w = Return None w <-> val = 0)
  /\ (cap_safe_bounds_check_apply h val w = Return None w <-> val = 0)
  /\ (cap_safe_indirect_branch_apply h val w = Return None w <-> val = 0)
  /\ (cap_nested_kvm_hv_apply h val w = Return None w <-> val = 0)
  /\ (val <> 0 ->
      (exists msg, cap_htm_apply h val w = Return (Some msg) w)
      /\ (exists msg, cap_safe_cache_apply h val w = Return (Some msg) w)
      /\ (exists msg,
            cap_safe_bounds_check_apply h val w = Return (Some msg) w)
      /\ (exists msg, cap_nested_kvm_hv_apply h val w = Return (Some msg) w)).
Proof.
  intros Htcg.
  pose proof (uint8_range (kvmppc_get_cap_safe_cache h)) as Hc.
  pose proof (uint8_range (kvmppc_get_cap_safe_bounds_check h)) as Hs.
  unfold cap_htm_apply, cap_safe_cache_apply, cap_safe_bounds_check_apply,
    cap_safe_indirect_branch_apply, cap_nested_kvm_hv_apply.
  rewrite Htcg. cbn [andb].
  destruct (val =? 0) eqn:E0; cbn [negb].
  - apply Z.eqb_eq in E0. subst val. cbn [Z.eqb SPAPR_CAP_WORKAROUND].
    destruct (0 >? uint8 (kvmppc_get_cap_safe_cache h)) eqn:E1; [lia|].
    destruct (0 >? uint8 (kvmppc_get_cap_safe_bounds_check h)) eqn:E2; [lia|].
    rewrite !andb_false_r.
    repeat split; intros; try reflexivity; try contradiction.
  - apply Z.eqb_neq in E0.
    repeat split; intros; try contradiction; try discriminate; eauto.
    destruct (val =? SPAPR_CAP_WORKAROUND); [|discriminate].
    unfold bind, vals_at in *.
    destruct (_ && _); [|discriminate].
    destruct (vals cap_ibs_possible !! _); discriminate.
Qed.

Lemma tcg_accepts_only_level_0_witness :
  cap_safe_cache_apply Examples.host_tcg 2 Examples.world
  <> Return None Examples.world
  /\ cap_htm_apply Examples.host_tcg 0 Examples.world
     = Return None Examples.world.
Proof.
  destruct (tcg_accepts_only_level_0 Examples.host_tcg 2 Examples.world
              eq_refl) as (_ & Hc & _).
  destruct (tcg_accepts_only_level_0 Examples.host_tcg 0 Examples.world
              eq_refl) as (Hh & _).
  split.
  - intros E. apply Hc in E. discriminate E.
  - apply Hh. reflexivity.
Defined.

Lemma check_pagesize_run h pagesize w :
  0 <= caps (eff (spapr w)) !!! SPAPR_CAP_HPT_MAXPAGESIZE < 64 ->
  let maxpagesize := 2 ^ (caps (eff (spapr w)) !!! SPAPR_CAP_HPT_MAXPAGESIZE) in
  spapr_check_pagesize h pagesize w
  = Return
      (if kvmppc_hpt_needs_host_contiguous_pages h && (maxpagesize >? pagesize)
       then Some ("Can't support " +:+ pretty (Z.shiftr maxpagesize 10)
                  +:+ " kiB guest pages with "
                  +:+ pretty (Z.shiftr pagesize 10)
                  +:+ " kiB host pages with this KVM implementation")
       else None) w.
Proof.
  intros Hk maxpagesize. subst maxpagesize.
  unfold spapr_check_pagesize, bind, get_spapr, shl1_64.
  set (k := caps (eff (spapr w)) !!! SPAPR_CAP_HPT_MAXPAGESIZE) in *.
  destruct (0 <=? k) eqn:E1; [|lia]. destruct (k <? 64) eqn:E2; [|lia].
  cbn [andb]. unfold ret at 1. rewrite Z.shiftl_1_l.
  destruct (kvmppc_hpt_needs_host_contiguous_pages h); cbn [negb andb];
    [|reflexivity].
  destruct (2 ^ k >? pagesize); reflexivity.
Qed.

(** X17: spapr_check_pagesize, for an effective hpt-max-page-size level k
    below 64, returns without touching the world, and it sets an error
    exactly when KVM needs host-contiguous pages and 2^k is above the page
    size it is given. *)
Theorem check_pagesize_verdict (h : Host) (pagesize : Z) (w : World) :
  0 <= caps (eff (spapr w)) !!! SPAPR_CAP_HPT_MAXPAGESIZE < 64 ->
  exists e,
    spapr_check_pagesize h pagesize w = Return e w
    /\ (e = None
        <-> kvmppc_hpt_needs_host_contiguous_pages h = false
            \/ 2 ^ (caps (eff (spapr w)) !!! SPAPR_CAP_HPT_MAXPAGESIZE)
               <= pagesize).
Proof.
  intros Hk. eexists. split; [apply check_pagesize_run; exact Hk|].
  cbv zeta.
  destruct (kvmppc_hpt_needs_host_contiguous_pages h); cbn [andb].
  - destruct (_ >? pagesize) eqn:E.
    + split; [discriminate|]. intros [Hf | Hle]; [discriminate | lia].
    + split; [|reflexivity]. intros _. right. lia.
  - split; [|reflexivity]. now left.
Qed.

Lemma check_pagesize_verdict_witness :
  exists e,
    spapr_check_pagesize Examples.host_kvm 4096 Examples.world
    = Return e Examples.world
    /\ (e = None
        <-> kvmppc_hpt_needs_host_contiguous_pages Examples.host_kvm = false
            \/ 2 ^ (caps (eff (spapr Examples.world))
                      !!! SPAPR_CAP_HPT_MAXPAGESIZE) <= 4096).
Proof.
  apply (check_pagesize_verdict Examples.host_kvm 4096 Examples.world).
  vm_compute. split; [discriminate | reflexivity].
Defined.

(** X18: applying hpt-max-page-size at its effective level val, from 12 up
    to 63, returns; it warns that many guests need 64kiB exactly when val is
    below 16, and it sets an error exactly when KVM needs host-contiguous
    pages and 2^val is above the host's RAM page size. *)
Theorem hpt_maxpagesize_apply_verdict (h : Host) (val : Z) (w : World) :
  caps (eff (spapr w)) !!! SPAPR_CAP_HPT_MAXPAGESIZE = val ->
  12 <= val < 64 ->
  exists e,
    cap_hpt_maxpagesize_apply h val w
    = Return e
        (add_reports w
           (if val <? 16
            then [warn_report
                    "Many guests require at least 64kiB hpt-max-page-size"]
            else []))
    /\ (e = None
        <-> kvmppc_hpt_needs_host_contiguous_pages h = false
            \/ 2 ^ val <= uint64 (qemu_getrampagesize h)).
Proof.
  intros Heff Hval. unfold cap_hpt_maxpagesize_apply.
  destruct (val <? 12) eqn:E12; [lia|].
  set (rs := if val <? 16
             then [warn_report
                     "Many guests require at least 64kiB hpt-max-page-size"]
             else []).
  assert ((if val <? 16
           then report (warn_report
                          "Many guests require at least 64kiB hpt-max-page-size")
           else ret tt) w = Return tt (add_reports w rs)) as Hwarn.
  { subst rs. destruct (val <? 16); [reflexivity|].
    unfold ret. now rewrite add_reports_nil. }
  rewrite (bind_Return _ _ w tt _ Hwarn).
  eexists. split.
  { apply check_pagesize_run. cbn [add_reports spapr]. rewrite Heff. lia. }
  cbv zeta. cbn [add_reports spapr]. rewrite Heff.
  destruct (kvmppc_hpt_needs_host_contiguous_pages h); cbn [andb].
  - destruct (_ >? _) eqn:E.
    + split; [discriminate|]. intros [Hf | Hle]; [discriminate | lia].
    + split; [|reflexivity]. intros _. right. lia.
  - split; [|reflexivity]. now left.
Qed.

Lemma hpt_maxpagesize_apply_verdict_witness :
  exists e,
    cap_hpt_maxpagesize_apply Examples.host_kvm 16 Examples.world
    = Return e (add_reports Examples.world [])
    /\ (e = None
        <-> kvmppc_hpt_needs_host_contiguous_pages Examples.host_kvm = false
            \/ 2 ^ 16 <= uint64 (qemu_getrampagesize Examples.host_kvm)).
Proof.
  apply (hpt_maxpagesize_apply_verdict Examples.host_kvm 16 Examples.world).
  - reflexivity.
  - lia.
Defined.

Ltac split_ifs :=
  repeat match goal with
         | |- context [if ?b then _ else _] => destruct b
         end.

Lemma vals_at_cases p i w :
  vals_at p i w = Crash \/ exists label, vals_at p i w = Return label w.
Proof.
  unfold vals_at. destruct (_ && _); [|now left].
  destruct (vals p !! Z.to_nat i); [right; eauto | now left].
Qed.

Ltac label_cases w :=
  match goal with
  | |- context [vals_at ?p ?k w] =>
      destruct (vals_at_cases p k w) as [-> | [? ->]]
  end.

(** What one apply function may come to from [w]. *)
Lemma apply_outcome i cap h val w :
  capability_table !! i = Some cap ->
  apply cap h val w = Crash
  \/ exists e rs, apply cap h val w = Return e (add_reports w rs)
                  /\ Forall is_warning rs.
Proof.
  intros Hcap.
  assert (forall e : option Error, exists e' rs,
            Return e w = Return e' (add_reports w rs) /\ Forall is_warning rs)
    as Hsame.
  { intros e. exists e, []. rewrite add_reports_nil. split; constructor. }
  destruct i as [|[|[|[|[|[|[|[|i]]]]]]]]; [..|discriminate Hcap].
  all: injection Hcap as <-; cbn [apply].
  - unfold cap_htm_apply. split_ifs; right; apply Hsame.
  - unfold cap_vsx_apply, g_assert, bind.
    split_ifs; first [now left | right; apply Hsame].
  - unfold cap_dfp_apply. split_ifs; right; apply Hsame.
  - unfold cap_safe_cache_apply, bind. cbv zeta.
    split_ifs; cbv beta; try (right; apply Hsame); label_cases w;
      first [now left | right; apply Hsame].
  - unfold cap_safe_bounds_check_apply, bind. cbv zeta.
    split_ifs; cbv beta; try (right; apply Hsame); label_cases w;
      first [now left | right; apply Hsame].
  - unfold cap_safe_indirect_branch_apply, bind. cbv zeta.
    split_ifs; cbv beta; try (right; apply Hsame); label_cases w;
      first [now left | right; apply Hsame].
  - unfold cap_hpt_maxpagesize_apply.
    destruct (val <? 12); [right; apply Hsame|].
    set (rs := if val <? 16
               then [warn_report
                       "Many guests require at least 64kiB hpt-max-page-size"]
               else []).
    assert (Forall is_warning rs) as Hrs.
    { subst rs. destruct (val <? 16); repeat constructor. eexists; reflexivity. }
    assert ((if val <? 16
             then report (warn_report
                            "Many guests require at least 64kiB hpt-max-page-size")
             else ret tt) w = Return tt (add_reports w rs)) as Hwarn.
    { subst rs. destruct (val <? 16); [reflexivity|].
      unfold ret. now rewrite add_reports_nil. }
    rewrite (bind_Return _ _ w tt _ Hwarn).
    unfold spapr_check_pagesize, bind, get_spapr, shl1_64, ret, crash.
    repeat (split_ifs; cbv beta iota);
      first [now left | right; eexists _, rs; split;
                          [reflexivity | exact Hrs]].
  - unfold cap_nested_kvm_hv_apply. split_ifs; right; apply Hsame.
Qed.

Lemma caps_apply_loop h w0 range w rs :
  Forall (fun i => (i < SPAPR_CAP_NUM)%nat) range ->
  spapr w = spapr w0 ->
  console w = (console w0 ++ rs)%list ->
  Forall is_warning rs ->
  apply_all_outcome w0
    (for_loop range
       (fun i _ =>
          info <- table_at i ;;
          s <- get_spapr ;;
          error_fatal (apply info h (caps (eff s) !!! i)))
       tt w).
Proof.
  intros Hrange. revert w rs.
  induction Hrange as [|i range Hi _ IH]; intros w rs Hs Hc Hrs.
  - simpl. split; [exact Hs|]. eauto.
  - rewrite for_loop_cons.
    destruct (table_at_lt i w Hi) as (info & Hinfo & Hrun).
    unfold bind at 1. unfold bind at 1. rewrite Hrun.
    unfold bind at 1, get_spapr at 1. unfold error_fatal, bind at 1.
    destruct (apply_outcome i info h (caps (eff (spapr w)) !!! i) w Hinfo)
      as [-> | (e & rs' & -> & Hrs')]; [exact I|].
    destruct e as [msg|].
    + unfold bind, report, exit. simpl. split; [reflexivity|].
      split; [exact Hs|]. exists (rs ++ rs')%list, msg. split.
      * rewrite Hc. now rewrite <- !app_assoc.
      * apply Forall_app. tauto.
    + unfold ret at 1. apply (IH _ (rs ++ rs')%list).
      * exact Hs.
      * simpl. rewrite Hc. now rewrite <- app_assoc.
      * apply Forall_app. tauto.
Qed.

(** X19: spapr_caps_apply never changes the machine state.  When it returns
    it has printed nothing but warnings; when an apply function refuses a
    level the process exits with status 1, and the error is the last thing
    printed, after warnings only. *)
Theorem caps_apply_frame (h : Host) (w : World) :
  apply_all_outcome w (spapr_caps_apply h w).
Proof.
  unfold spapr_caps_apply. apply (caps_apply_loop h w _ w []).
  - apply Forall_forall. intros i Hi. apply elem_of_seq in Hi. lia.
  - reflexivity.
  - now rewrite app_nil_r.
  - constructor.
Qed.

Lemma for_loop_app {S} (l1 l2 : list nat) (body : nat -> S -> M S) acc w :
  for_loop (l1 ++ l2) body acc w
  = bind (for_loop l1 body acc) (fun acc' => for_loop l2 body acc') w.
Proof.
  revert acc w. induction l1 as [|i l1 IH]; intros acc w; [reflexivity|].
  simpl. unfold bind. destruct (body i acc w) as [a w'| |];
    try reflexivity.
  rewrite IH. reflexivity.
Qed.

Lemma caps_apply_accepted_loop h range w :
  Forall (accepts h (spapr w)) range ->
  exists rs,
    for_loop range
      (fun i _ =>
         info <- table_at i ;;
         s <- get_spapr ;;
         error_fatal (apply info h (caps (eff s) !!! i)))
      tt w
    = Return tt (add_reports w rs).
Proof.
  intros Hrange. remember (spapr w) as s eqn:Hs. revert w Hs.
  induction Hrange as [|i range (cap & Hcap & Hacc) _ IH]; intros w Hs.
  - exists []. now rewrite add_reports_nil.
  - destruct (Hacc w (eq_sym Hs)) as [rs1 Hrun1].
    destruct (IH (add_reports w rs1)) as [rs2 Hrun2]; [exact Hs|].
    exists (rs1 ++ rs2)%list. rewrite for_loop_cons.
    rewrite (bind_Return _ _ w tt (add_reports w rs1)).
    + rewrite Hrun2. now rewrite add_reports_app.
    + unfold table_at. rewrite Hcap.
      unfold bind, ret, get_spapr, error_fatal. rewrite <- Hs.
      unfold bind. now rewrite Hrun1.
Qed.

(** X20: when every capability's apply function accepts its effective
    level, spapr_caps_apply returns and the machine state is as before. *)
Theorem caps_apply_all_accepted (h : Host) (w : World) :
  (forall i, (i < SPAPR_CAP_NUM)%nat -> accepts h (spapr w) i) ->
  exists w', spapr_caps_apply h w = Return tt w' /\ spapr w' = spapr w.
Proof.
  intros Hall.
  destruct (caps_apply_accepted_loop h (seq 0 SPAPR_CAP_NUM) w) as [rs Hrun].
  { apply Forall_forall. intros i Hi. apply Hall.
    apply elem_of_seq in Hi. lia. }
  eexists. split; [exact Hrun | reflexivity].
Qed.

(** X21: capabilities are applied in table order and the first refusal is
    fatal: when the apply functions of all capabilities before i accept and
    that of capability i refuses with msg, spapr_caps_apply exits with
    status 1, msg is the last report printed, and the machine state is as
    before. *)
Theorem caps_apply_first_refusal (h : Host) (w : World) (i : nat)
    (msg : Error) :
  (i < SPAPR_CAP_NUM)%nat ->
  (forall j, (j < i)%nat -> accepts h (spapr w) j) ->
  refuses h (spapr w) i msg ->
  exists w' rs,
    spapr_caps_apply h w = Exit 1 w'
    /\ spapr w' = spapr w
    /\ console w' = (console w ++ rs ++ [error_report msg])%list.
Proof.
  intros Hi Hbefore (cap & Hcap & Href).
  unfold spapr_caps_apply.
  replace (seq 0 SPAPR_CAP_NUM)
    with (seq 0 i ++ i :: seq (S i) (SPAPR_CAP_NUM - S i))%list.
  2:{ change (i :: seq (S i) (SPAPR_CAP_NUM - S i))
        with (seq i (S (SPAPR_CAP_NUM - S i))).
      rewrite <- seq_app. f_equal. lia. }
  rewrite for_loop_app.
  destruct (caps_apply_accepted_loop h (seq 0 i) w) as [rs1 Hrun1].
  { apply Forall_forall. intros j Hj. apply Hbefore.
    apply elem_of_seq in Hj. lia. }
  rewrite (bind_Return _ _ w tt _ Hrun1). rewrite for_loop_cons.
  destruct (Href (add_reports w rs1) eq_refl) as [rs2 Hrun2].
  unfold bind at 1. unfold table_at. rewrite Hcap.
  unfold bind, ret, get_spapr, error_fatal. cbn [add_reports spapr].
  unfold bind. cbn [add_reports spapr] in Hrun2. rewrite Hrun2.
  unfold report, exit. cbn.
  eexists _, (rs1 ++ rs2)%list. split; [reflexivity|].
  split; [reflexivity|]. now rewrite <- !app_assoc.
Qed.

Ltac accept_by_computation :=
  eexists; split; [reflexivity|];
  let w1 := fresh "w" in
  let Hw := fresh "Hw" in
  intros w1 Hw; exists []; rewrite add_reports_nil;
  destruct w1; simpl in Hw; subst; reflexivity.

Lemma caps_apply_all_accepted_witness :
  exists w',
    spapr_caps_apply Examples.host_kvm Samples.initialized_world
    = Return tt w'
    /\ spapr w' = spapr Samples.initialized_world.
Proof.
  apply (caps_apply_all_accepted Examples.host_kvm Samples.initialized_world).
  intros i Hi.
  destruct i as [|[|[|[|[|[|[|[|i]]]]]]]]; try accept_by_computation.
  cbv [SPAPR_CAP_NUM SPAPR_CAP_NESTED_KVM_HV] in Hi. lia.
Defined.

Lemma caps_apply_first_refusal_witness :
  exists w' rs,
    spapr_caps_apply Examples.host_kvm Examples.world = Exit 1 w'
    /\ spapr w' = spapr Examples.world
    /\ console w'
       = (console Examples.world ++ rs
          ++ [error_report
                "Requested safe indirect branch capability level not supported by kvm, try cap-ibs=fixed-ccd"])%list.
Proof.
  apply (caps_apply_first_refusal Examples.host_kvm Examples.world
           SPAPR_CAP_IBS).
  - cbv [SPAPR_CAP_NUM SPAPR_CAP_NESTED_KVM_HV SPAPR_CAP_IBS]. lia.
  - intros j Hj.
    destruct j as [|[|[|[|[|j]]]]]; try accept_by_computation.
    cbv [SPAPR_CAP_IBS] in Hj. lia.
  - eexists. split; [reflexivity|].
    intros w1 Hw. exists []. rewrite add_reports_nil.
    destruct w1; simpl in Hw; subst; reflexivity.
Defined.

(** ** From the command line to the running machine *)

(** X22: a level set before initialisation survives it: after the setter
    of a registered capability has accepted a value, spapr_caps_init leaves
    that capability at the level the setter stored, with its command-line
    flag set, while every other capability that was not set on the command
    line gets its computed default. *)
Theorem set_then_init (h : Host) (i : nat) (cap : sPAPRCapabilityInfo)
    (v : Visitor) (w w1 : World) :
  capability_table !! i = Some cap ->
  wf_caps (default_caps (smc (spapr w))) ->
  wf_caps (def (spapr w)) ->
  wf_caps (eff (spapr w)) ->
  length (cmd_line_caps (spapr w)) = SPAPR_CAP_NUM ->
  property_set cap v w = Return None w1 ->
  exists w2 dflt,
    spapr_caps_init h w1 = Return tt w2
    /\ default_caps_with_cpu h (cpu_type (spapr w)) w = Return dflt w
    /\ caps (eff (spapr w2)) !!! i = caps (eff (spapr w1)) !!! i
    /\ cmd_line_caps (spapr w2) !!! i = true
    /\ (forall j, (j < SPAPR_CAP_NUM)%nat -> j <> i ->
          cmd_line_caps (spapr w) !!! j = false ->
          caps (eff (spapr w2)) !!! j = caps dflt !!! j).
Proof.
  intros Hcap Hsmc Hdef Heff Hflags Hset.
  pose proof (table_index i cap Hcap) as Hidx.
  assert (i < SPAPR_CAP_NUM)%nat as Hi.
  { apply lookup_lt_Some in Hcap. exact Hcap. }
  destruct (property_set_outcome i cap v w Hcap) as (e & w' & Hrun & Hout).
  rewrite Hset in Hrun. apply Return_inj in Hrun as [<- <-].
  destruct Hout as [[He _] | [_ (lvl & _ & ->)]]; [contradiction|].
  assert (wf_caps (eff (spapr (set_level w cap lvl)))) as Heff1.
  { unfold wf_caps, set_level. simpl. now rewrite length_insert. }
  destruct (caps_init_post h (set_level w cap lvl) Hsmc Hdef Heff1)
    as [_ He].
  destruct (init_fold_frame (computed_defaults h (spapr (set_level w cap lvl)))
              (seq 0 SPAPR_CAP_NUM) (spapr (set_level w cap lvl)))
    as (_ & _ & _ & Eflags & _).
  eexists _, _. split; [apply caps_init_run|].
  split; [apply default_caps_with_cpu_run|].
  cbn [spapr]. cbn [spapr] in He, Eflags.
  assert (cmd_line_caps (spapr (set_level w cap lvl)) !!! i = true) as Hset_i.
  { unfold set_level. simpl. rewrite Hidx.
    apply list_lookup_total_insert_eq. rewrite Hflags. exact Hi. }
  split; [|split].
  - rewrite He by exact Hi. now rewrite Hset_i.
  - rewrite Eflags. exact Hset_i.
  - intros j Hj Hne Hflag. rewrite He by exact Hj.
    assert (cmd_line_caps (spapr (set_level w cap lvl)) !!! j = false) as ->.
    { unfold set_level. simpl. rewrite Hidx.
      rewrite list_lookup_total_insert_ne by congruence. exact Hflag. }
    reflexivity.
Qed.

Lemma set_then_init_witness :
  exists cap w1 w2 dflt,
    capability_table !! SPAPR_CAP_IBS = Some cap
    /\ property_set cap (Examples.str_visitor "fixed-ibs") Examples.world
       = Return None w1
    /\ spapr_caps_init Examples.host_kvm w1 = Return tt w2
    /\ default_caps_with_cpu Examples.host_kvm
         (cpu_type (spapr Examples.world)) Examples.world
       = Return dflt Examples.world
    /\ caps (eff (spapr w2)) !!! SPAPR_CAP_IBS
       = caps (eff (spapr w1)) !!! SPAPR_CAP_IBS
    /\ cmd_line_caps (spapr w2) !!! SPAPR_CAP_IBS = true
    /\ (forall j, (j < SPAPR_CAP_NUM)%nat -> j <> SPAPR_CAP_IBS ->
          cmd_line_caps (spapr Examples.world) !!! j = false ->
          caps (eff (spapr w2)) !!! j = caps dflt !!! j).
Proof.
  eexists _, _.
  match goal with
  | |- exists w2 dflt, _ !! _ = Some ?cap /\ _ = Return None ?w1 /\ _ =>
      destruct (set_then_init Examples.host_kvm SPAPR_CAP_IBS cap
                  (Examples.str_visitor "fixed-ibs") Examples.world w1
                  eq_refl eq_refl eq_refl eq_refl eq_refl eq_refl)
        as (w2 & dflt & H)
  end.
  exists w2, dflt. split; [reflexivity|]. split; [reflexivity|]. exact H.
Defined.
